(** * Verification of the Zipkin adapter of jaeger-ui

    Source: [packages/jaeger-ui/src/api/jaeger.js].

    The adapter reshapes Zipkin spans into the trace model of the UI
    ([transformTraceData] and its helpers), extracts key/value fields from
    annotation strings ([transformLogs]) and translates search queries
    ([durationToMs], [searchTraces]).

    JavaScript strings are sequences of 16-bit code units; they are modelled
    as lists of code units.  Regular expressions of the source are modelled
    by the backtracking matcher they denote (ECMAScript, no [u] flag). *)

From Stdlib Require Import ZArith NArith QArith Lia Sorted.
From Stdlib Require Import Strings.String Strings.Ascii.
From Stdlib Require Import Floats.SpecFloat.
From stdpp Require Import base option list gmap.

Local Open Scope nat_scope.

(** ** JavaScript strings *)

Module JS.

(** A code unit of a JavaScript string, and a string. *)
Abbreviation char := N.
Abbreviation jsstring := (list char).

(** Literal strings of the source, written as Rocq strings of ASCII
    characters. *)
Fixpoint str (s : string) : jsstring :=
  match s with
  | EmptyString => []
  | String a r => N_of_ascii a :: str r
  end.

Definition c_eq : char := 61%N.      (* '=' *)
Definition c_dollar : char := 36%N.  (* '$' *)
Definition c_amp : char := 38%N.     (* '&' *)
Definition c_backtick : char := 96%N.
Definition c_quote : char := 39%N.   (* ''' *)

(** [\s] of ECMAScript: WhiteSpace and LineTerminator code points. *)
Definition is_space (c : char) : bool :=
  ((9 <=? c) && (c <=? 13) || (c =? 32) || (c =? 160) || (c =? 5760)
   || (8192 <=? c) && (c <=? 8202) || (c =? 8232) || (c =? 8233)
   || (c =? 8239) || (c =? 8287) || (c =? 12288) || (c =? 65279))%N.

(** [[0-9]]. *)
Definition is_digit (c : char) : bool := ((48 <=? c) && (c <=? 57))%N.

(** [[a-z]] under the [i] flag: the ASCII letters of both cases (no code unit
    above 127 canonicalizes to an ASCII letter). *)
Definition is_letter (c : char) : bool :=
  ((97 <=? c) && (c <=? 122) || (65 <=? c) && (c <=? 90))%N.

(** [s.startsWith(p)]: [p] occurs in [s] at index 0. *)
Fixpoint starts_with (p s : jsstring) : bool :=
  match p, s with
  | [], _ => true
  | _ :: _, [] => false
  | a :: p', b :: s' => (a =? b)%N && starts_with p' s'
  end.

(** [s.indexOf(p)]: the least index at which [p] occurs in [s]; [None] is
    JavaScript's -1. *)
Fixpoint indexOf (s p : jsstring) : option nat :=
  if starts_with p s then Some 0
  else match s with
       | [] => None
       | _ :: s' => S <$> indexOf s' p
       end.

(** GetSubstitution of ECMAScript for a string pattern (no captures, no
    named groups): in the replacement text [$$] stands for [$], [$&] for the
    matched text, [$`] for the text before the match and [$'] for the text
    after it; every other [$] is literal. *)
Fixpoint GetSubstitution (matched before after repl : jsstring) : jsstring :=
  match repl with
  | [] => []
  | c :: r =>
      if (c =? c_dollar)%N then
        match r with
        | [] => [c]
        | d :: r' =>
            if (d =? c_dollar)%N then
              c_dollar :: GetSubstitution matched before after r'
            else if (d =? c_amp)%N then
              matched ++ GetSubstitution matched before after r'
            else if (d =? c_backtick)%N then
              before ++ GetSubstitution matched before after r'
            else if (d =? c_quote)%N then
              after ++ GetSubstitution matched before after r'
            else c :: GetSubstitution matched before after r
        end
      else c :: GetSubstitution matched before after r
  end.

(** [s.replace(p, repl)] with a string pattern [p]: only the first occurrence
    of [p] is replaced, and [repl] is expanded by [GetSubstitution]. *)
Definition replace (s p repl : jsstring) : jsstring :=
  match indexOf s p with
  | None => s
  | Some i =>
      let before := take i s in
      let after := drop (i + length p) s in
      before ++ GetSubstitution p before after repl ++ after
  end.

(** [s.split(sep)] for a non-empty separator [sep].  The scan of ECMAScript
    moves an index [q] over [s]; where [sep] occurs at [q] the text collected
    since the last separator is emitted and [q] jumps over the separator
    ([skip] counts the code units still to jump), otherwise the code unit at
    [q] joins the current piece [cur]. *)
Fixpoint split_scan (sep s : jsstring) (skip : nat) (cur : jsstring)
  : list jsstring :=
  match s with
  | [] => [cur]
  | c :: r =>
      match skip with
      | S k => split_scan sep r k cur
      | 0 =>
          if starts_with sep s
          then cur :: split_scan sep r (length sep - 1) []
          else split_scan sep r 0 (cur ++ [c])
      end
  end.

Definition split (s sep : jsstring) : list jsstring := split_scan sep s 0 [].

(** A property that holds a string, [null], or is absent ([undefined]). *)
Inductive opt_string : Type :=
  | Undefined
  | Null
  | Str (s : jsstring).

#[global] Instance opt_string_eq_dec : EqDecision opt_string.
Proof. solve_decision. Defined.

(** ToBoolean: [undefined], [null] and the empty string are falsy. *)
Definition truthy (v : opt_string) : bool :=
  match v with
  | Str (_ :: _) => true
  | _ => false
  end.

(** [v === s] for a string [s]. *)
Definition strict_eq (v : opt_string) (s : jsstring) : bool :=
  match v with
  | Str t => bool_decide (t = s)
  | _ => false
  end.

(** A plain object [{}] used as a dictionary of records.  Its own properties
    are a finite map.  The key [__proto__] is not an own property: a write
    to it reaches the accessor inherited from [Object.prototype], which
    makes the written object the prototype of the dictionary and adds no
    own property. *)
Record dict (V : Type) : Type := {
  own : gmap jsstring V;
  proto : option V
}.
Arguments own {V} _.
Arguments proto {V} _.

(** [{}] *)
Definition dict_empty {V : Type} : dict V := {| own := ∅; proto := None |}.

(** The property name [__proto__]. *)
Definition proto_key : jsstring := str "__proto__".

(** [o[k] = v] for an object [v]. *)
Definition dict_set {V : Type} (o : dict V) (k : jsstring) (v : V) : dict V :=
  if decide (k = proto_key)
  then {| own := own o; proto := Some v |}
  else {| own := <[k := v]> (own o); proto := proto o |}.

(** [Object.keys(o).length] *)
Definition dict_size {V : Type} (o : dict V) : nat := size (own o).

End JS.

Import JS.

(** ** Annotation fields: the body of [transformLogs] *)

(** *** The pattern [/(\s?((\S+)=))/gi] *)

(** The greedy [\S+] first takes the whole run of non-whitespace. *)
Fixpoint nonspace_run (s : jsstring) : nat :=
  match s with
  | c :: r => if is_space c then 0 else S (nonspace_run r)
  | [] => 0
  end.

(** Backtracking of [\S+]: it gives code units back one at a time, keeping at
    least one, until the code unit that follows is ['=']. *)
Fixpoint key_backtrack (s : jsstring) (k : nat) : option nat :=
  match k with
  | 0 => None
  | S k' =>
      match s !! k with
      | Some c => if (c =? c_eq)%N then Some k else key_backtrack s k'
      | None => key_backtrack s k'
      end
  end.

(** [(\S+)=] at the head of [s]: the length of the key. *)
Definition match_key (s : jsstring) : option nat :=
  key_backtrack s (nonspace_run s).

(** The whole pattern at the head of [s]: [\s?] first tries to take one
    whitespace code unit and falls back to taking none.  The result is the
    number of code units taken by [\s?] and by [\S+]. *)
Definition match_here (s : jsstring) : option (nat * nat) :=
  match s with
  | c :: r =>
      if is_space c then
        match match_key r with
        | Some k => Some (1, k)
        | None => pair 0 <$> match_key s
        end
      else pair 0 <$> match_key s
  | [] => None
  end.

(** The search of [exec]: the pattern is tried at each index from [i] on. *)
Fixpoint exec_scan (s : jsstring) (i : nat) : option (nat * (nat * nat)) :=
  match match_here s with
  | Some wk => Some (i, wk)
  | None =>
      match s with
      | [] => None
      | _ :: r => exec_scan r (S i)
      end
  end.

(** The match object: [index], [match[0]] and [match[3]]. *)
Record RegExpMatch := {
  m_index : nat;
  m_0 : jsstring;
  m_3 : jsstring
}.

(** [regex.exec(value)] of a global regex whose [lastIndex] is [lastIndex]:
    the match, if any, and the new [lastIndex] (0 after a failure). *)
Definition regex_exec (value : jsstring) (lastIndex : nat)
  : option RegExpMatch * nat :=
  match exec_scan (drop lastIndex value) lastIndex with
  | Some (i, (w, k)) =>
      (Some {| m_index := i;
               m_0 := take (w + k + 1) (drop i value);
               m_3 := take k (drop (i + w) value) |},
       i + w + k + 1)
  | None => (None, 0)
  end.

(** *** The loop and the split *)

(** The separator token [__$key$__]. *)
Definition key_token : jsstring := str "__$key$__".

(** The replacement text of the template literal [`__$key$__${key}=`]. *)
Definition key_replacement (key : jsstring) : jsstring :=
  key_token ++ key ++ [c_eq].

(** The [while (match != null)] loop, from the state ([lastIndex],
    [fieldsValue]); [fuel] bounds the number of iterations. *)
Fixpoint fields_loop (fuel : nat) (value : jsstring) (lastIndex : nat)
    (fieldsValue : jsstring) : jsstring :=
  match fuel with
  | 0 => fieldsValue
  | S fuel' =>
      match regex_exec value lastIndex with
      | (Some m, lastIndex') =>
          fields_loop fuel' value lastIndex'
            (replace fieldsValue (m_0 m) (key_replacement (m_3 m)))
      | (None, _) => fieldsValue
      end
  end.

(** The matches the loop sees, in order. *)
Fixpoint regex_matches (fuel : nat) (value : jsstring) (lastIndex : nat)
  : list RegExpMatch :=
  match fuel with
  | 0 => []
  | S fuel' =>
      match regex_exec value lastIndex with
      | (Some m, lastIndex') => m :: regex_matches fuel' value lastIndex'
      | (None, _) => []
      end
  end.

Record Field := {
  f_key : jsstring;
  f_value : option jsstring  (* [None] is [undefined] *)
}.

(** [prop => { const t = prop.split('='); return {key: t[0], value: t[1]} }] *)
Definition field_of_prop (prop : jsstring) : Field :=
  let t := split prop [c_eq] in
  {| f_key := default [] (t !! 0); f_value := t !! 1 |}.

(** The value of [fieldsValue] when the loop is left. *)
Definition fieldsValue_of (value : jsstring) : jsstring :=
  fields_loop (S (length value)) value 0 value.

(** The fields of one annotation value (lines 77 to 92). *)
Definition annotation_fields (value : jsstring) : list Field :=
  field_of_prop <$> tail (split (fieldsValue_of value) key_token).

(** ** Data model *)

(** The spans of the tracing backend. *)
Module Zipkin.

Record Annotation := {
  a_timestamp : Z;
  a_value : jsstring
}.

Record Endpoint := {
  serviceName : jsstring;
  ipv4 : opt_string
}.

Record Span := {
  id : jsstring;
  traceId : jsstring;
  parentId : opt_string;
  name : jsstring;
  kind : opt_string;
  timestamp : Z;
  duration : Z;
  localEndpoint : Endpoint;
  (* [None]: the property is absent; the entries are in property order *)
  tags : option (list (jsstring * jsstring));
  annotations : option (list Annotation)
}.

End Zipkin.

(** The trace model of the UI. *)
Module Jaeger.

Record Log := {
  l_timestamp : Z;
  fields : list Field
}.

Record KeyValue := {
  key : jsstring;
  value : jsstring
}.

Record Reference := {
  refType : jsstring;
  r_traceID : jsstring;
  r_spanID : opt_string
}.

Record Span := {
  spanID : jsstring;
  s_traceID : jsstring;
  processID : jsstring;
  operationName : jsstring;
  startTime : Z;
  duration : Z;
  logs : list Log;
  tags : list KeyValue;
  references : list Reference
}.

Record ProcessTag := {
  p_key : jsstring;
  p_type : jsstring;
  p_value : opt_string
}.

Record Process := {
  serviceName : jsstring;
  p_tags : list ProcessTag
}.

Record Trace := {
  traceID : jsstring;
  spans : list Span;
  processes : dict Process
}.

End Jaeger.

(** ** The span transformers *)

Definition transformLogs (span : Zipkin.Span) : list Jaeger.Log :=
  match Zipkin.annotations span with
  | None => []
  | Some annotations =>
      (fun annotation =>
         {| Jaeger.l_timestamp := Zipkin.a_timestamp annotation;
            Jaeger.fields := annotation_fields (Zipkin.a_value annotation) |})
        <$> annotations
  end.

Definition transformTags (span : Zipkin.Span) : list Jaeger.KeyValue :=
  match Zipkin.tags span with
  | None => []
  | Some entries =>
      (fun tag => {| Jaeger.key := tag.1; Jaeger.value := tag.2 |}) <$> entries
  end.

Definition transformReferences (span : Zipkin.Span) : list Jaeger.Reference :=
  if negb (truthy (Zipkin.parentId span)) then []
  else [ {| Jaeger.refType :=
              if strict_eq (Zipkin.kind span) (str "CONSUMER")
              then str "FOLLOWS_FROM" else str "CHILD_OF";
            Jaeger.r_traceID := Zipkin.traceId span;
            Jaeger.r_spanID := Zipkin.parentId span |} ].

(** The arrow function of [trace.map] in [transformTraceData]. *)
Definition transformSpan (span : Zipkin.Span) : Jaeger.Span :=
  {| Jaeger.spanID := Zipkin.id span;
     Jaeger.s_traceID := Zipkin.traceId span;
     Jaeger.processID := Zipkin.serviceName (Zipkin.localEndpoint span);
     Jaeger.operationName := Zipkin.name span;
     Jaeger.startTime := Zipkin.timestamp span;
     Jaeger.duration := Zipkin.duration span;
     Jaeger.logs := transformLogs span;
     Jaeger.tags := transformTags span;
     Jaeger.references := transformReferences span |}.

(** The process record that the [forEach] of [transformTraceData] writes. *)
Definition process_of (span : Zipkin.Span) : Jaeger.Process :=
  let localEndpoint := Zipkin.localEndpoint span in
  let name := Zipkin.serviceName localEndpoint in
  {| Jaeger.serviceName := name;
     Jaeger.p_tags :=
       [ {| Jaeger.p_key := str "hostname"; Jaeger.p_type := str "string";
            Jaeger.p_value := Str name |};
         {| Jaeger.p_key := str "ip"; Jaeger.p_type := str "string";
            Jaeger.p_value := Zipkin.ipv4 localEndpoint |} ] |}.

(** [trace.forEach(span => { traceData.processes[name] = ... })] from the
    dictionary [processes]. *)
Definition add_processes (trace : list Zipkin.Span)
    (processes : dict Jaeger.Process) : dict Jaeger.Process :=
  foldl (fun ps span =>
           dict_set ps (Zipkin.serviceName (Zipkin.localEndpoint span))
             (process_of span))
        processes trace.

(** [transformTraceData]; [trace[0].traceId] throws on an empty [trace],
    which is [None]. *)
Definition transformTraceData (trace : list Zipkin.Span)
  : option Jaeger.Trace :=
  match trace with
  | [] => None
  | first :: _ =>
      Some {| Jaeger.traceID := Zipkin.traceId first;
              Jaeger.spans := transformSpan <$> trace;
              Jaeger.processes := add_processes trace dict_empty |}
  end.

(** [transformTracesData]: [traces.map(...)]; it throws when one trace does. *)
Definition transformTracesData (traces : list (list Zipkin.Span))
  : option (list Jaeger.Trace) :=
  mapM transformTraceData traces.

(** ** Durations and the search query *)

(** *** The pattern [/([0-9]+)([a-z]+)/gmi] *)

Fixpoint digit_run (s : jsstring) : nat :=
  match s with
  | c :: r => if is_digit c then S (digit_run r) else 0
  | [] => 0
  end.

Fixpoint letter_run (s : jsstring) : nat :=
  match s with
  | c :: r => if is_letter c then S (letter_run r) else 0
  | [] => 0
  end.

(** Backtracking of [[0-9]+]: [k] digits are kept, at least one, and
    [[a-z]+] must take at least one letter after them. *)
Fixpoint digits_backtrack (s : jsstring) (k : nat) : option (nat * nat) :=
  match k with
  | 0 => None
  | S k' =>
      let l := letter_run (drop k s) in
      if 0 <? l then Some (k, l) else digits_backtrack s k'
  end.

(** The pattern at the head of [s]: the lengths of the two groups. *)
Definition duration_match_here (s : jsstring) : option (nat * nat) :=
  digits_backtrack s (digit_run s).

(** [re.exec(duration)] of the fresh regex: the groups [rs[1]] and [rs[2]]
    of the first match. *)
Fixpoint duration_exec (s : jsstring) : option (jsstring * jsstring) :=
  match duration_match_here s with
  | Some (k, l) => Some (take k s, take l (drop k s))
  | None =>
      match s with
      | [] => None
      | _ :: r => duration_exec r
      end
  end.

(** Numbers are exact rationals in what follows; the program computes with
    their nearest doubles, which [Double] below models for what depends on
    the rounding. *)

(** [parseInt(value, 10)] on a run of decimal digits. *)
Definition parseInt10 (value : jsstring) : Z :=
  foldl (fun n c => 10 * n + (Z.of_N c - 48))%Z 0%Z value.

(** [a > b] on numbers. *)
Definition gt (a b : Q) : bool :=
  match (a ?= b)%Q with
  | Gt => true
  | _ => false
  end.

Section Duration.

(** [moment.duration(n, unit).asMilliseconds()] of the moment library,
    which is not part of the repository: the length in milliseconds of [n]
    units [unit]. *)
Variable asMilliseconds : Z -> jsstring -> Q.

(** The value of [ms] at line 183, from the groups of the match. *)
Definition computed_ms (value unit : jsstring) (nanos : bool) : Q :=
  let ms := asMilliseconds (parseInt10 value) unit in
  if nanos then (ms * 1000)%Q else ms.

(** [durationToMs]; [None] is [null]. *)
Definition durationToMs (duration : opt_string) (nanos : bool) : option Q :=
  if negb (truthy duration) then None
  else
    match duration with
    | Str s =>
        match duration_exec s with
        | Some (value, unit) =>
            let ms := computed_ms value unit nanos in
            if gt ms 0 then Some ms else None
        | None => None
        end
    | _ => None
    end.

(** The query of the UI. *)
Record Query := {
  q_operation : opt_string;
  q_minDuration : opt_string;
  q_maxDuration : opt_string;
  q_end : Q;
  q_limit : Q;
  q_tags : opt_string;
  q_lookback : opt_string;
  q_service : opt_string
}.

(** The query of the backend.  [lookback] and [serviceName] are [None]
    when the object has no such property. *)
Record ZipkinQuery := {
  spanName : opt_string;
  minDuration : option Q;
  maxDuration : option Q;
  endTs : Q;
  limit : Q;
  annotationQuery : opt_string;
  lookback : option (option Q);
  serviceName : option opt_string
}.

(** The value of [zipkinQuery] that [searchTraces] hands to [getJSON]. *)
Definition zipkinQuery_of (query : Query) : ZipkinQuery :=
  {| spanName := q_operation query;
     minDuration := durationToMs (q_minDuration query) true;
     maxDuration := durationToMs (q_maxDuration query) true;
     endTs := (q_end query / 1000)%Q;
     limit := q_limit query;
     annotationQuery := q_tags query;
     lookback :=
       if truthy (q_lookback query)
       then Some (durationToMs (q_lookback query) false)
       else None;
     serviceName :=
       if negb (strict_eq (q_service query) (str "all"))
       then Some (q_service query)
       else None |}.

End Duration.

(** A conversion table with the units [ms], [s], [m] and [h], on which the
    definitions above can be run; any other unit counts for nothing. *)
Definition unit_table (n : Z) (unit : jsstring) : Q :=
  if bool_decide (unit = str "ms") then inject_Z n
  else if bool_decide (unit = str "s") then inject_Z (n * 1000)
  else if bool_decide (unit = str "m") then inject_Z (n * 60000)
  else if bool_decide (unit = str "h") then inject_Z (n * 3600000)
  else 0%Q.


(** *** The durations over IEEE doubles *)

(** The numbers of JavaScript are IEEE 754 binary64 values.  [Double] holds
    [durationToMs] over them, for what depends on rounding: [ms * 1000] is
    the rounded product, and [ms > 0] is false of [NaN]. *)
Module Double.

(** A binary64 value: sign, mantissa and exponent, or zero, infinity, NaN. *)
Abbreviation number := spec_float.


(** The double nearest to the integer [z]. *)
Definition of_Z (z : Z) : number := binary_normalize 53 1024 z 0 false.

Definition zero : number := S754_zero false.

(** The literal [1000]. *)
Definition thousand : number := Eval vm_compute in of_Z 1000.

(** [a * b] *)
Definition mul (a b : number) : number := SFmul 53 1024 a b.

(** [a > b] *)
Definition gt (a b : number) : bool := SFltb b a.

(** The value of [ms] at line 183; [asMilliseconds n unit] is the double
    that [moment.duration(parseInt(value, 10), unit).asMilliseconds()]
    yields when the digits [value] denote [n]. *)
Definition computed_ms (asMilliseconds : Z -> jsstring -> number)
    (value unit : jsstring) (nanos : bool) : number :=
  let ms := asMilliseconds (parseInt10 value) unit in
  if nanos then mul ms thousand else ms.

(** [durationToMs]; [None] is [null]. *)
Definition durationToMs (asMilliseconds : Z -> jsstring -> number)
    (duration : opt_string) (nanos : bool) : option number :=
  if negb (truthy duration) then None
  else
    match duration with
    | Str s =>
        match duration_exec s with
        | Some (value, unit) =>
            let ms := computed_ms asMilliseconds value unit nanos in
            if gt ms zero then Some ms else None
        | None => None
        end
    | _ => None
    end.

(** A triple read as a double: a triple that is no binary64 value is no
    number. *)
Definition as_double (x : number) : number :=
  if valid_binary 53 1024 x then x else S754_nan.

(** A conversion table with the units [ms] and [s], on which the
    definitions above can be run; any other unit counts for nothing. *)
Definition unit_table (n : Z) (unit : jsstring) : number :=
  if bool_decide (unit = str "ms") then as_double (of_Z n)
  else if bool_decide (unit = str "s") then as_double (of_Z (n * 1000))
  else zero.

End Double.

(** ** Statements *)

(** A run of the [while] loop of [transformLogs] from the state ([lastIndex],
    [fieldsValue]) to its exit, where [regex.exec] returns [null]. *)
Inductive while_loop (value : jsstring) : nat -> jsstring -> jsstring -> Prop :=
  | while_exit lastIndex fieldsValue :
      (regex_exec value lastIndex).1 = None ->
      while_loop value lastIndex fieldsValue fieldsValue
  | while_step lastIndex fieldsValue m lastIndex' fieldsValue' :
      regex_exec value lastIndex = (Some m, lastIndex') ->
      while_loop value lastIndex'
        (replace fieldsValue (m_0 m) (key_replacement (m_3 m))) fieldsValue' ->
      while_loop value lastIndex fieldsValue fieldsValue'.

(** The successive results of [regex.exec(value)] from [lastIndex] on, up to
    the first [null]. *)
Inductive exec_run (value : jsstring) : nat -> list RegExpMatch -> Prop :=
  | exec_run_null lastIndex :
      (regex_exec value lastIndex).1 = None ->
      exec_run value lastIndex []
  | exec_run_match lastIndex m lastIndex' ms :
      regex_exec value lastIndex = (Some m, lastIndex') ->
      exec_run value lastIndex' ms ->
      exec_run value lastIndex (m :: ms).

(** The matches of the key marker in [value], as the loop finds them. *)
Definition matches_of (value : jsstring) : list RegExpMatch :=
  regex_matches (S (length value)) value 0.

(** The pieces that [transformLogs] turns into fields:
    [fieldsValue.split('__$key$__').slice(1)]. *)
Definition field_props (value : jsstring) : list jsstring :=
  tail (split (fieldsValue_of value) key_token).

(** [v.substring(i, j)] for [i <= j]. *)
Definition substring (v : jsstring) (i j : nat) : jsstring :=
  take (j - i) (drop i v).

(** The index just after a match. *)
Definition m_end (m : RegExpMatch) : nat := m_index m + length (m_0 m).

(** The segments of [value] by a forward scan over its key markers [ms]: the
    segment of a marker is its key, an ['='] and the text from the end of
    the marker up to the start of the next marker, or to the end of
    [value]. *)
Fixpoint marker_segments (value : jsstring) (ms : list RegExpMatch)
  : list jsstring :=
  match ms with
  | [] => []
  | m :: ms' =>
      let next := match ms' with
                  | [] => length value
                  | m' :: _ => m_index m'
                  end in
      (m_3 m ++ [c_eq] ++ substring value (m_end m) next)
        :: marker_segments value ms'
  end.

(** The text that the loop makes of [value] from the index [i] on, when the
    markers [ms] lie ahead: each marker is replaced by the separator token,
    its key and an ['=']. *)
Fixpoint assemble (value : jsstring) (i : nat) (ms : list RegExpMatch)
  : jsstring :=
  match ms with
  | [] => drop i value
  | m :: ms' =>
      substring value i (m_index m) ++ key_replacement (m_3 m)
        ++ assemble value (m_end m) ms'
  end.

(** The pieces of [assemble value i ms] between the separator tokens, the
    first piece after the text [cur]. *)
Fixpoint pieces (value : jsstring) (i : nat) (cur : jsstring)
    (ms : list RegExpMatch) : list jsstring :=
  match ms with
  | [] => [cur ++ drop i value]
  | m :: ms' =>
      (cur ++ substring value i (m_index m))
        :: pieces value (m_end m) (m_3 m ++ [c_eq]) ms'
  end.

(** A key marker that starts with whitespace: a whitespace code unit, a
    non-empty key without whitespace, and an ['=']. *)
Definition spaced_marker (x : jsstring) : Prop :=
  exists c key, x = c :: key ++ [c_eq] /\ is_space c = true /\
                key <> [] /\ Forall (fun d => is_space d = false) key.

(** No spaced marker without ['$'] starts inside the prefix [P] of a text,
    whatever follows [P]. *)
Definition marker_free (P : jsstring) : Prop :=
  forall x rest q,
    spaced_marker x -> c_dollar ∉ x -> q < length P ->
    starts_with x (drop q (P ++ rest)) = false.

(** The text of [s] before its first ['=']. *)
Fixpoint before_eq (s : jsstring) : jsstring :=
  match s with
  | [] => []
  | c :: r => if (c =? c_eq)%N then [] else c :: before_eq r
  end.

(** The text of [s] after its first ['='], if it has one. *)
Fixpoint after_eq (s : jsstring) : option jsstring :=
  match s with
  | [] => None
  | c :: r => if (c =? c_eq)%N then Some r else after_eq r
  end.

(** The field of a piece when it is split once, at its first ['=']: the
    value is all the text after that ['=']. *)
Definition field_split_once (prop : jsstring) : Field :=
  {| f_key := before_eq prop; f_value := after_eq prop |}.

(** The field of a piece when the value stops at the second ['=']. *)
Definition field_split_all (prop : jsstring) : Field :=
  {| f_key := before_eq prop; f_value := before_eq <$> after_eq prop |}.

(** A digit that is followed by a letter at index [i] of [s]: what a match
    of [[0-9]+[a-z]+] needs. *)
Definition digit_then_letter (s : jsstring) (i : nat) : Prop :=
  exists c d, s !! i = Some c /\ s !! S i = Some d /\
              is_digit c = true /\ is_letter d = true.

(** [span.localEndpoint.serviceName] *)
Definition service_name (span : Zipkin.Span) : jsstring :=
  Zipkin.serviceName (Zipkin.localEndpoint span).

(** The [ip] tag of a process record. *)
Definition ip_tag (p : Jaeger.Process) : option Jaeger.ProcessTag :=
  Jaeger.p_tags p !! 1.

(** The reference that [transformReferences] builds for a span with a
    parent. *)
Definition parent_reference (span : Zipkin.Span) : Jaeger.Reference :=
  {| Jaeger.refType :=
       if decide (Zipkin.kind span = Str (str "CONSUMER"))
       then str "FOLLOWS_FROM" else str "CHILD_OF";
     Jaeger.r_traceID := Zipkin.traceId span;
     Jaeger.r_spanID := Zipkin.parentId span |}.

(** *** Sample inputs *)

Definition endpoint_of (name : string) (ip : string) : Zipkin.Endpoint :=
  {| Zipkin.serviceName := str name; Zipkin.ipv4 := Str (str ip) |}.

Definition sample_span (id : string) (parent : opt_string) (kind : opt_string)
    (ep : Zipkin.Endpoint) : Zipkin.Span :=
  {| Zipkin.id := str id;
     Zipkin.traceId := str "T1";
     Zipkin.parentId := parent;
     Zipkin.name := str "op";
     Zipkin.kind := kind;
     Zipkin.timestamp := 0;
     Zipkin.duration := 1;
     Zipkin.localEndpoint := ep;
     Zipkin.tags := None;
     Zipkin.annotations := None |}.

Definition sample_query (service : opt_string) : Query :=
  {| q_operation := Undefined;
     q_minDuration := Str (str "12s");
     q_maxDuration := Undefined;
     q_end := 5000;
     q_limit := 20;
     q_tags := Undefined;
     q_lookback := Str (str "1h");
     q_service := service |}.

(** *** Annotation values in the usual form *)

Definition c_space : char := 32%N.

(** A code unit of a key: no whitespace, no ['='], no ['$']. *)
Definition key_char (c : char) : bool :=
  negb (is_space c) && negb (c =? c_eq)%N && negb (c =? c_dollar)%N.

(** A code unit of a value: no ['='], no ['$']. *)
Definition value_char (c : char) : bool :=
  negb (c =? c_eq)%N && negb (c =? c_dollar)%N.

(** The pairs [key=value], each after a space. *)
Fixpoint spaced_pairs (pairs : list (jsstring * jsstring)) : jsstring :=
  match pairs with
  | [] => []
  | (k, v) :: rest => c_space :: k ++ [c_eq] ++ v ++ spaced_pairs rest
  end.

(** An annotation value that packs the pairs [key=value], one space between
    them. *)
Definition format_fields (pairs : list (jsstring * jsstring)) : jsstring :=
  match pairs with
  | [] => []
  | (k, v) :: rest => k ++ [c_eq] ++ v ++ spaced_pairs rest
  end.

(** The matches of the key marker in [spaced_pairs pairs], when that text
    starts at the index [off] of the annotation value. *)
Fixpoint spaced_matches (off : nat) (pairs : list (jsstring * jsstring))
  : list RegExpMatch :=
  match pairs with
  | [] => []
  | (k, v) :: rest =>
      {| m_index := off; m_0 := c_space :: k ++ [c_eq]; m_3 := k |}
        :: spaced_matches (off + (1 + length k + 1) + length v) rest
  end.

(** The pairs that can be packed: the key is not empty and made of key code
    units, the value is made of value code units. *)
Definition packable (kv : jsstring * jsstring) : Prop :=
  kv.1 <> [] /\ Forall (fun c => key_char c = true) kv.1 /\
  Forall (fun c => value_char c = true) kv.2.

(** ** Proofs *)

(** *** Truthiness and strict equality *)

Lemma truthy_Str (v : opt_string) :
  truthy v = true <-> exists c s, v = Str (c :: s).
Proof.
  split.
  - destruct v as [| |[|c s]]; simpl; try discriminate. eauto.
  - intros (c & s & ->). reflexivity.
Qed.

Lemma strict_eq_true (v : opt_string) (s : jsstring) :
  strict_eq v s = true <-> v = Str s.
Proof.
  destruct v as [| |t]; simpl; try (split; discriminate).
  rewrite bool_decide_eq_true. split; congruence.
Qed.

Lemma strict_eq_false (v : opt_string) (s : jsstring) :
  strict_eq v s = false <-> v <> Str s.
Proof.
  rewrite <- strict_eq_true. destruct (strict_eq v s); split; congruence.
Qed.

(** *** References *)

Lemma transformReferences_falsy (span : Zipkin.Span) :
  truthy (Zipkin.parentId span) = false -> transformReferences span = [].
Proof. unfold transformReferences. intros ->. reflexivity. Qed.

Lemma transformReferences_truthy (span : Zipkin.Span) :
  truthy (Zipkin.parentId span) = true ->
  transformReferences span = [parent_reference span].
Proof.
  unfold transformReferences, parent_reference. intros ->. cbn [negb].
  destruct (decide (Zipkin.kind span = Str (str "CONSUMER"))) as [E | E].
  - apply strict_eq_true in E. rewrite E. reflexivity.
  - apply strict_eq_false in E. rewrite E. reflexivity.
Qed.

(** C2, as stated, fails: a span whose [parentId] is present and is the empty
    string gets no reference at all, although the claim promises exactly one
    reference whenever [parentId] is present. *)
Lemma references_present_empty_parent :
  let span := sample_span "s2" (Str (str "")) Undefined (endpoint_of "A" "10.0.0.1") in
  Zipkin.parentId span <> Undefined /\
  Jaeger.references (transformSpan span) <> [parent_reference span] /\
  Jaeger.references (transformSpan span) = [].
Proof. cbv zeta. split; [discriminate | split; [discriminate | reflexivity]]. Qed.

(** C2, amended: [transformSpan] produces no reference when [parentId] is
    absent; when [parentId] is a non-empty string it produces exactly one
    reference, whose [refType] is FOLLOWS_FROM if [kind] is CONSUMER and
    CHILD_OF otherwise, whose [traceID] is the span's [traceId] and whose
    [spanID] is the span's [parentId]. *)
Theorem transformSpan_references (span : Zipkin.Span) :
  (Zipkin.parentId span = Undefined ->
   Jaeger.references (transformSpan span) = []) /\
  (forall c p, Zipkin.parentId span = Str (c :: p) ->
     exists r, Jaeger.references (transformSpan span) = [r] /\
       (Zipkin.kind span = Str (str "CONSUMER") ->
        Jaeger.refType r = str "FOLLOWS_FROM") /\
       (Zipkin.kind span <> Str (str "CONSUMER") ->
        Jaeger.refType r = str "CHILD_OF") /\
       Jaeger.r_traceID r = Zipkin.traceId span /\
       Jaeger.r_spanID r = Str (c :: p)).
Proof.
  split.
  - intros H. simpl. apply transformReferences_falsy. rewrite H. reflexivity.
  - intros c p H. exists (parent_reference span). simpl.
    split; [apply transformReferences_truthy; rewrite H; reflexivity |].
    unfold parent_reference. simpl.
    split; [intros E; rewrite decide_True by exact E; reflexivity |].
    split; [intros E; rewrite decide_False by exact E; reflexivity |].
    split; [reflexivity | exact H].
Qed.

Lemma transformSpan_references_witness :
  exists r,
    Jaeger.references
      (transformSpan (sample_span "s2" (Str (str "s1")) (Str (str "CONSUMER"))
                        (endpoint_of "B" "10.0.0.2"))) = [r] /\
    Jaeger.refType r = str "FOLLOWS_FROM".
Proof.
  destruct (transformSpan_references
              (sample_span "s2" (Str (str "s1")) (Str (str "CONSUMER"))
                 (endpoint_of "B" "10.0.0.2"))) as [_ H].
  destruct (H 115%N (str "1") eq_refl) as (r & Hr & Hf & _).
  exists r. split; [exact Hr | apply Hf; reflexivity].
Defined.

(** C10: a span whose [parentId] is present but falsy ([null] or the empty
    string) gets an empty [references] sequence, as a span without
    [parentId] does; a reference is produced only for a non-empty
    [parentId]. *)
Theorem transformSpan_references_falsy_parent (span : Zipkin.Span) :
  (Zipkin.parentId span <> Undefined ->
   truthy (Zipkin.parentId span) = false ->
   Jaeger.references (transformSpan span) = []) /\
  (Zipkin.parentId span = Str [] ->
   Jaeger.references (transformSpan span) = []) /\
  (Jaeger.references (transformSpan span) <> [] ->
   exists c p, Zipkin.parentId span = Str (c :: p)).
Proof.
  split; [| split].
  - intros _ H. simpl. apply transformReferences_falsy, H.
  - intros H. simpl. apply transformReferences_falsy. rewrite H. reflexivity.
  - simpl. intros H. apply truthy_Str.
    destruct (truthy (Zipkin.parentId span)) eqn:E; [reflexivity |].
    contradict H. apply transformReferences_falsy, E.
Qed.

Lemma transformSpan_references_falsy_parent_witness :
  Jaeger.references
    (transformSpan (sample_span "s2" (Str []) Undefined
                      (endpoint_of "A" "10.0.0.1"))) = [] /\
  Jaeger.references
    (transformSpan (sample_span "s3" Null Undefined
                      (endpoint_of "A" "10.0.0.1"))) = [].
Proof.
  split.
  - apply (proj1 (proj2 (transformSpan_references_falsy_parent
             (sample_span "s2" (Str []) Undefined (endpoint_of "A" "10.0.0.1"))))).
    reflexivity.
  - apply (proj1 (transformSpan_references_falsy_parent
             (sample_span "s3" Null Undefined (endpoint_of "A" "10.0.0.1"))));
      [discriminate | reflexivity].
Defined.

(** *** Splitting a piece at ['='] *)

Lemma starts_with_eq (c : char) (r : jsstring) :
  starts_with [c_eq] (c :: r) = (c =? c_eq)%N.
Proof. cbn [starts_with]. rewrite andb_true_r. apply N.eqb_sym. Qed.

Lemma split_scan_eq (s cur : jsstring) :
  split_scan [c_eq] s 0 cur =
  (cur ++ before_eq s) ::
    match after_eq s with
    | Some r => split_scan [c_eq] r 0 []
    | None => []
    end.
Proof.
  revert cur. induction s as [|c r IH]; intros cur.
  - simpl. rewrite app_nil_r. reflexivity.
  - cbn [split_scan]. rewrite starts_with_eq. cbn [before_eq after_eq].
    destruct (c =? c_eq)%N.
    + rewrite app_nil_r. reflexivity.
    + rewrite IH, <- app_assoc. reflexivity.
Qed.

Lemma split_eq_head (s : jsstring) : split s [c_eq] !! 0 = Some (before_eq s).
Proof. unfold split. rewrite split_scan_eq. reflexivity. Qed.

Lemma split_eq_second (s : jsstring) :
  split s [c_eq] !! 1 = before_eq <$> after_eq s.
Proof.
  unfold split. rewrite split_scan_eq. cbn [lookup list_lookup].
  destruct (after_eq s) as [r|]; [| reflexivity].
  rewrite split_scan_eq. reflexivity.
Qed.

Lemma field_of_prop_split_all (prop : jsstring) :
  field_of_prop prop = field_split_all prop.
Proof.
  unfold field_of_prop, field_split_all.
  rewrite split_eq_head, split_eq_second. reflexivity.
Qed.

(** *** Annotation fields on examples *)

(** C3, as stated, fails: the first field of "a=1 b=2" has the value "1",
    not "1 " with a trailing space. *)
Lemma annotation_fields_a1_b2_no_trailing_space :
  annotation_fields (str "a=1 b=2") <>
  [ {| f_key := str "a"; f_value := Some (str "1 ") |};
    {| f_key := str "b"; f_value := Some (str "2") |} ].
Proof. vm_compute. discriminate. Qed.

(** C3, amended: parsing "a=1 b=2" yields exactly the two fields
    (a, "1") and (b, "2"), in that order: the whitespace before a key belongs
    to the key marker and is in no value. *)
Theorem annotation_fields_a1_b2 :
  annotation_fields (str "a=1 b=2") =
  [ {| f_key := str "a"; f_value := Some (str "1") |};
    {| f_key := str "b"; f_value := Some (str "2") |} ].
Proof. vm_compute. reflexivity. Qed.

(** C4, as stated, fails: "a=1 =x" has one key marker, so its one piece is
    the whole string; the text after the first ['='] is "1 =x", but the
    field's value is "1 ". *)
Lemma annotation_fields_value_cut_at_second_eq :
  let value := str "a=1 =x" in
  field_props value = [value] /\
  annotation_fields value = [ {| f_key := str "a"; f_value := Some (str "1 ") |} ] /\
  field_split_once value = {| f_key := str "a"; f_value := Some (str "1 =x") |} /\
  annotation_fields value <> field_split_once <$> field_props value.
Proof.
  cbv zeta. split; [vm_compute; reflexivity |].
  split; [vm_compute; reflexivity |].
  split; [vm_compute; reflexivity |].
  vm_compute. discriminate.
Qed.

Lemma annotation_fields_fmap (value : jsstring) :
  annotation_fields value = field_split_all <$> field_props value.
Proof.
  unfold annotation_fields, field_props.
  apply list_fmap_ext. intros _ prop _. apply field_of_prop_split_all.
Qed.

(** C4, amended: for every annotation value, each field comes from one piece
    of the split at the separator token; its key is the text of the piece
    before the first ['='] and its value is the text between the first ['=']
    and the second one (or the end of the piece when there is no second
    ['=']); the value is [undefined] when the piece has no ['=']. *)
Theorem annotation_fields_split_all (value : jsstring) :
  length (annotation_fields value) = length (field_props value) /\
  forall i f, annotation_fields value !! i = Some f ->
    exists prop, field_props value !! i = Some prop /\
      f_key f = before_eq prop /\
      f_value f = before_eq <$> after_eq prop.
Proof.
  rewrite annotation_fields_fmap. split; [apply length_fmap |].
  intros i f H. rewrite list_lookup_fmap in H.
  destruct (field_props value !! i) as [prop|]; [| discriminate].
  injection H as <-. exists prop. auto.
Qed.

Lemma annotation_fields_split_all_witness :
  exists f, annotation_fields (str "url=http://h/?q=1") !! 0 = Some f /\
    f_key f = str "url" /\ f_value f = Some (str "http://h/?q").
Proof.
  destruct (annotation_fields (str "url=http://h/?q=1") !! 0) as [f|] eqn:E;
    [| vm_compute in E; discriminate].
  destruct (proj2 (annotation_fields_split_all (str "url=http://h/?q=1")) 0 f E)
    as (prop & Hp & Hk & Hv).
  vm_compute in Hp. injection Hp as <-.
  exists f. split; [reflexivity |]. split; [exact Hk | exact Hv].
Defined.

(** *** The duration pattern *)

Lemma digit_run_lookup (s : jsstring) (i : nat) :
  i < digit_run s -> exists c, s !! i = Some c /\ is_digit c = true.
Proof.
  revert i. induction s as [|c r IH]; intros i Hi; simpl in Hi; [lia |].
  destruct (is_digit c) eqn:E; [| lia].
  destruct i as [|i]; [exists c; auto |].
  apply IH. lia.
Qed.

Lemma letter_run_pos (s : jsstring) :
  0 < letter_run s <-> exists d, s !! 0 = Some d /\ is_letter d = true.
Proof.
  destruct s as [|d r]; simpl.
  - split; [lia | intros (d & H & _); discriminate].
  - destruct (is_letter d) eqn:E.
    + split; [eauto | lia].
    + split; [lia | intros (d' & [= <-] & H); congruence].
Qed.

Lemma digit_not_letter (c : char) : is_digit c = true -> is_letter c = false.
Proof.
  unfold is_digit, is_letter. intros H.
  apply andb_true_iff in H as [H1 H2].
  apply N.leb_le in H1, H2.
  apply orb_false_iff; split; apply andb_false_iff; left; apply N.leb_gt; lia.
Qed.

Lemma digits_backtrack_Some (s : jsstring) (k k' l : nat) :
  digits_backtrack s k = Some (k', l) ->
  1 <= k' <= k /\ l = letter_run (drop k' s) /\ 0 < l.
Proof.
  induction k as [|k IH]; simpl; [discriminate |].
  destruct (0 <? letter_run (drop (S k) s)) eqn:E.
  - intros [= <- <-]. apply Nat.ltb_lt in E. lia.
  - intros H. apply IH in H. lia.
Qed.

Lemma duration_match_here_Some (s : jsstring) (k l : nat) :
  duration_match_here s = Some (k, l) -> digit_then_letter s (k - 1).
Proof.
  unfold duration_match_here. intros H.
  apply digits_backtrack_Some in H as (Hk & -> & Hl).
  destruct (digit_run_lookup s (k - 1)) as (c & Hc & Hd); [lia |].
  apply letter_run_pos in Hl as (d & Hd' & Hl).
  rewrite lookup_drop, Nat.add_0_r in Hd'.
  exists c, d. replace (S (k - 1)) with k by lia. auto.
Qed.

Lemma duration_exec_Some (s value unit : jsstring) :
  duration_exec s = Some (value, unit) -> exists i, digit_then_letter s i.
Proof.
  induction s as [|c r IH]; simpl.
  - discriminate.
  - destruct (duration_match_here (c :: r)) as [[k l]|] eqn:E.
    + intros _. eauto using duration_match_here_Some.
    + intros H. destruct (IH H) as (i & c' & d & H1 & H2 & H3).
      exists (S i), c', d. auto.
Qed.

Lemma duration_match_here_digit_letter (c d : char) (r : jsstring) :
  is_digit c = true -> is_letter d = true ->
  duration_match_here (c :: d :: r) <> None.
Proof.
  intros Hc Hd. unfold duration_match_here. simpl.
  rewrite Hc. destruct (is_digit d) eqn:E.
  - apply digit_not_letter in E. congruence.
  - simpl. rewrite Hd. discriminate.
Qed.

Lemma duration_exec_None (s : jsstring) :
  duration_exec s = None <-> forall i, ~ digit_then_letter s i.
Proof.
  split.
  - induction s as [|c r IH]; intros H i (c' & d & H1 & H2 & H3 & H4).
    + discriminate.
    + simpl in H.
      destruct (duration_match_here (c :: r)) as [[k l]|] eqn:E; [discriminate |].
      destruct i as [|i].
      * destruct r as [|d' r]; [discriminate |].
        injection H1 as <-. injection H2 as <-.
        exact (duration_match_here_digit_letter _ _ _ H3 H4 E).
      * apply (IH H i). exists c', d. auto.
  - intros H. destruct (duration_exec s) as [[value unit]|] eqn:E; [| reflexivity].
    apply duration_exec_Some in E as [i Hi]. destruct (H i Hi).
Qed.

(** *** Numbers *)

Lemma gt_0_false (a : Q) : gt a 0 = false <-> (a <= 0)%Q.
Proof.
  unfold gt. rewrite Qle_alt.
  destruct (a ?= 0)%Q; split; congruence.
Qed.

Lemma gt_0_scale (a : Q) : gt (a * 1000) 0 = gt a 0.
Proof.
  unfold gt, Qcompare. destruct a as [n d]. simpl.
  change (0 * Z.pos (d * 1))%Z with 0%Z. change (0 * Z.pos d)%Z with 0%Z.
  rewrite !Z.mul_1_r.
  destruct (Z.compare_spec (n * 1000) 0), (Z.compare_spec n 0);
    try reflexivity; lia.
Qed.

(** *** [durationToMs] *)

Section DurationProofs.

Variable asMilliseconds : Z -> jsstring -> Q.

Lemma durationToMs_falsy (duration : opt_string) (nanos : bool) :
  truthy duration = false -> durationToMs asMilliseconds duration nanos = None.
Proof. unfold durationToMs. intros ->. reflexivity. Qed.

Lemma durationToMs_no_match (s : jsstring) (nanos : bool) :
  duration_exec s = None -> durationToMs asMilliseconds (Str s) nanos = None.
Proof.
  unfold durationToMs. intros ->. destruct (truthy (Str s)); reflexivity.
Qed.

Lemma durationToMs_match (s value unit : jsstring) (nanos : bool) :
  duration_exec s = Some (value, unit) ->
  durationToMs asMilliseconds (Str s) nanos =
  let ms := computed_ms asMilliseconds value unit nanos in
  if gt ms 0 then Some ms else None.
Proof.
  unfold durationToMs. intros E. rewrite E.
  destruct s as [|c r]; [discriminate | reflexivity].
Qed.

Lemma computed_ms_nanos (value unit : jsstring) :
  computed_ms asMilliseconds value unit true =
  (computed_ms asMilliseconds value unit false * 1000)%Q.
Proof. reflexivity. Qed.

End DurationProofs.

(** C6: [durationToMs] has a result for every token (it is a total function:
    no step of it can throw); the result is [null] when the token is falsy
    ([null], [undefined] or the empty string), when the token has no digit
    followed by a letter (no match of the pattern), and when the computed
    number of milliseconds is not strictly positive, as for "0ms", which is
    zero milliseconds. *)
Theorem durationToMs_null (asMilliseconds : Z -> jsstring -> Q) :
  (forall duration nanos,
     truthy duration = false ->
     durationToMs asMilliseconds duration nanos = None) /\
  (forall s nanos,
     (forall i, ~ digit_then_letter s i) ->
     durationToMs asMilliseconds (Str s) nanos = None) /\
  (forall s value unit nanos,
     duration_exec s = Some (value, unit) ->
     (computed_ms asMilliseconds value unit nanos <= 0)%Q ->
     durationToMs asMilliseconds (Str s) nanos = None) /\
  (forall nanos,
     (asMilliseconds 0%Z (str "ms") <= 0)%Q ->
     durationToMs asMilliseconds (Str (str "0ms")) nanos = None).
Proof.
  split; [apply durationToMs_falsy |].
  split; [intros s nanos H; apply durationToMs_no_match, duration_exec_None, H |].
  assert (Hle : forall s value unit nanos,
     duration_exec s = Some (value, unit) ->
     (computed_ms asMilliseconds value unit nanos <= 0)%Q ->
     durationToMs asMilliseconds (Str s) nanos = None).
  { intros s value unit nanos E H.
    rewrite (durationToMs_match _ _ _ _ _ E). cbv zeta.
    apply gt_0_false in H. rewrite H. reflexivity. }
  split; [exact Hle |].
  intros nanos H. apply (Hle _ (str "0") (str "ms")); [reflexivity |].
  apply gt_0_false. apply gt_0_false in H.
  destruct nanos; [| exact H].
  rewrite computed_ms_nanos, gt_0_scale. exact H.
Qed.

Lemma durationToMs_null_witness :
  durationToMs unit_table Null true = None /\
  durationToMs unit_table (Str (str "")) false = None /\
  durationToMs unit_table (Str (str "fast")) false = None /\
  durationToMs unit_table (Str (str "0ms")) true = None.
Proof.
  destruct (durationToMs_null unit_table) as (H1 & H2 & _ & H4).
  split; [apply H1; reflexivity |].
  split; [apply H1; reflexivity |].
  split; [| apply H4; vm_compute; discriminate].
  apply H2. intros i (c & d & Hc & Hd & Hdc & _).
  do 4 (destruct i as [|i]; [injection Hc as <-; discriminate |]).
  destruct i; discriminate.
Defined.

(** Whether [durationToMs] yields whole numbers rests on the library alone:
    where its conversion yields whole numbers of milliseconds, so does
    [durationToMs]. *)
Lemma durationToMs_whole (asMilliseconds : Z -> jsstring -> Q)
    (duration : opt_string) (nanos : bool) (r : Q) :
  (forall n unit, exists z, asMilliseconds n unit = inject_Z z) ->
  durationToMs asMilliseconds duration nanos = Some r ->
  exists z, r = inject_Z z.
Proof.
  intros Hlib H. destruct (truthy duration) eqn:Et.
  2:{ rewrite durationToMs_falsy in H by exact Et. discriminate. }
  apply truthy_Str in Et as (c & s & ->).
  destruct (duration_exec (c :: s)) as [[value unit]|] eqn:E.
  2:{ rewrite durationToMs_no_match in H by exact E. discriminate. }
  rewrite (durationToMs_match _ _ _ _ _ E) in H. cbv zeta in H.
  destruct (gt _ 0); [| discriminate]. injection H as <-.
  unfold computed_ms. destruct (Hlib (parseInt10 value) unit) as [z ->].
  destruct nanos; [exists (z * 1000)%Z | exists z]; reflexivity.
Qed.

(** *** The search query *)

(** C9: the translated query has a [serviceName] field if and only if
    [query.service !== "all"], and the field holds [query.service]. *)
Theorem zipkinQuery_serviceName (asMilliseconds : Z -> jsstring -> Q)
    (query : Query) :
  (is_Some (serviceName (zipkinQuery_of asMilliseconds query)) <->
   q_service query <> Str (str "all")) /\
  (forall v, serviceName (zipkinQuery_of asMilliseconds query) = Some v ->
             v = q_service query).
Proof.
  cbn [zipkinQuery_of serviceName].
  destruct (strict_eq (q_service query) (str "all")) eqn:E; cbn [negb].
  - apply strict_eq_true in E. split.
    + split; [intros [v Hv]; discriminate | congruence].
    + discriminate.
  - apply strict_eq_false in E. split.
    + split; [intros _; exact E | eauto].
    + congruence.
Qed.

Lemma zipkinQuery_serviceName_witness :
  serviceName (zipkinQuery_of unit_table (sample_query (Str (str "svcA"))))
  = Some (Str (str "svcA")) /\
  serviceName (zipkinQuery_of unit_table (sample_query (Str (str "all")))) = None.
Proof.
  split.
  - destruct (zipkinQuery_serviceName unit_table
                (sample_query (Str (str "svcA")))) as [[_ H1] H2].
    destruct H1 as [v Hv]; [discriminate |].
    rewrite Hv. f_equal. exact (H2 v Hv).
  - destruct (zipkinQuery_serviceName unit_table
                (sample_query (Str (str "all")))) as [[H1 _] _].
    destruct (serviceName (zipkinQuery_of unit_table (sample_query (Str (str "all")))))
      as [v|] eqn:E; [| reflexivity].
    destruct (H1 (ex_intro _ v eq_refl)). reflexivity.
Defined.

(** *** The process table *)

Lemma own_dict_set {V : Type} (o : dict V) (k : jsstring) (v : V) :
  k <> proto_key -> own (dict_set o k v) = <[k := v]> (own o).
Proof. intros H. unfold dict_set. rewrite decide_False by exact H. reflexivity. Qed.

Lemma own_dict_set_proto {V : Type} (o : dict V) (v : V) :
  own (dict_set o proto_key v) = own o.
Proof. unfold dict_set. rewrite decide_True by reflexivity. reflexivity. Qed.

Lemma add_processes_cons (span : Zipkin.Span) (trace : list Zipkin.Span)
    (ps : dict Jaeger.Process) :
  add_processes (span :: trace) ps =
  add_processes trace (dict_set ps (service_name span) (process_of span)).
Proof. reflexivity. Qed.

Lemma add_processes_app (l1 l2 : list Zipkin.Span) (ps : dict Jaeger.Process) :
  add_processes (l1 ++ l2) ps = add_processes l2 (add_processes l1 ps).
Proof. apply foldl_app. Qed.

(** The spans that come after the last span of a service do not touch its
    entry. *)
Lemma add_processes_lookup_other (trace : list Zipkin.Span)
    (ps : dict Jaeger.Process) (name : jsstring) :
  (forall span, span ∈ trace -> service_name span <> name) ->
  own (add_processes trace ps) !! name = own ps !! name.
Proof.
  revert ps. induction trace as [|span trace IH]; intros ps H; [reflexivity |].
  rewrite add_processes_cons, IH.
  - destruct (decide (service_name span = proto_key)) as [E | E].
    + rewrite E, own_dict_set_proto. reflexivity.
    + rewrite own_dict_set by exact E.
      apply lookup_insert_ne, H. left.
  - intros span' Hin. apply H. right. exact Hin.
Qed.

Lemma add_processes_dom (trace : list Zipkin.Span) (ps : dict Jaeger.Process) :
  (forall span, span ∈ trace -> service_name span <> proto_key) ->
  dom (own (add_processes trace ps)) =
  dom (own ps) ∪ list_to_set (service_name <$> trace).
Proof.
  revert ps. induction trace as [|span trace IH]; intros ps H.
  - simpl. symmetry. apply (right_id_L ∅ (∪)).
  - rewrite add_processes_cons, IH by (intros ? ?; apply H; right; done).
    rewrite own_dict_set by (apply H; left).
    rewrite dom_insert_L, fmap_cons, list_to_set_cons.
    rewrite (comm_L (∪) {[service_name span]} (dom (own ps))).
    symmetry. apply (assoc_L (∪)).
Qed.

(** C1 at the failing input: a trace whose one span is of the service
    "__proto__" has one distinct service name and its process table has no
    entry; the record has become the prototype of the table instead. *)
Lemma processes_of_proto_service :
  let span := sample_span "s1" Undefined Undefined (endpoint_of "__proto__" "10.0.0.1") in
  exists t, transformTraceData [span] = Some t /\
    length (remove_dups (service_name <$> [span])) = 1 /\
    dict_size (Jaeger.processes t) = 0 /\
    own (Jaeger.processes t) !! service_name span = None /\
    proto (Jaeger.processes t) = Some (process_of span).
Proof.
  intros span. eexists. split; [reflexivity |].
  split; [reflexivity |]. cbn [Jaeger.processes].
  change (add_processes [span] dict_empty)
    with (dict_set (@dict_empty Jaeger.Process) proto_key (process_of span)).
  unfold dict_size. rewrite own_dict_set_proto.
  split; [apply map_size_empty |].
  split; [apply lookup_empty |].
  unfold dict_set. rewrite decide_True by reflexivity. reflexivity.
Qed.

(** *** The key-marker pattern and the loop *)

Lemma key_backtrack_Some (s : jsstring) (n k : nat) :
  key_backtrack s n = Some k -> 1 <= k <= n /\ s !! k = Some c_eq.
Proof.
  induction n as [|n IH]; simpl; [discriminate |].
  destruct (s !! S n) as [c|] eqn:E.
  - destruct (c =? c_eq)%N eqn:Ec.
    + intros [= <-]. apply N.eqb_eq in Ec. subst c. split; [lia | exact E].
    + intros H. apply IH in H. split; [lia | tauto].
  - intros H. apply IH in H. split; [lia | tauto].
Qed.

Lemma match_key_Some (s : jsstring) (k : nat) :
  match_key s = Some k ->
  1 <= k <= nonspace_run s /\ s !! k = Some c_eq /\ k < length s.
Proof.
  unfold match_key. intros H. apply key_backtrack_Some in H as [H1 H2].
  split; [exact H1 |]. split; [exact H2 |].
  apply lookup_lt_is_Some. eauto.
Qed.

Lemma match_here_Some (s : jsstring) (w k : nat) :
  match_here s = Some (w, k) -> w <= 1 /\ 1 <= k /\ w + k + 1 <= length s.
Proof.
  destruct s as [|c r]; simpl; [discriminate |].
  assert (H0 : pair 0 <$> match_key (c :: r) = Some (w, k) ->
               w <= 1 /\ 1 <= k /\ w + k + 1 <= S (length r)).
  { destruct (match_key (c :: r)) as [k'|] eqn:E; [| discriminate].
    intros [= <- <-]. apply match_key_Some in E. simpl in E. lia. }
  destruct (is_space c); [| exact H0].
  destruct (match_key r) as [k'|] eqn:E; [| exact H0].
  intros [= <- <-]. apply match_key_Some in E. lia.
Qed.

Lemma exec_scan_cons (c : char) (r : jsstring) (i : nat) :
  exec_scan (c :: r) i =
  match match_here (c :: r) with
  | Some wk => Some (i, wk)
  | None => exec_scan r (S i)
  end.
Proof. reflexivity. Qed.

Lemma exec_scan_Some (s : jsstring) (i j w k : nat) :
  exec_scan s i = Some (j, (w, k)) ->
  i <= j /\ j + w + k + 1 <= i + length s /\
  match_here (drop (j - i) s) = Some (w, k).
Proof.
  revert i. induction s as [|c r IH]; intros i; [discriminate |].
  rewrite exec_scan_cons.
  destruct (match_here (c :: r)) as [[w' k']|] eqn:E.
  - intros [= <- <- <-]. apply match_here_Some in E as E'. simpl in E'.
    rewrite Nat.sub_diag. simpl. split; [lia |]. split; [lia | exact E].
  - intros H. apply IH in H as (H1 & H2 & H3). simpl.
    split; [lia |]. split; [lia |].
    replace (j - i) with (S (j - S i)) by lia. exact H3.
Qed.

Lemma regex_exec_Some (value : jsstring) (lastIndex lastIndex' : nat)
    (m : RegExpMatch) :
  regex_exec value lastIndex = (Some m, lastIndex') ->
  lastIndex < lastIndex' <= length value.
Proof.
  unfold regex_exec.
  destruct (exec_scan (drop lastIndex value) lastIndex) as [[j [w k]]|] eqn:E;
    [| discriminate].
  intros [= <- <-]. apply exec_scan_Some in E as (H1 & H2 & H3).
  apply match_here_Some in H3. rewrite length_drop in H2. lia.
Qed.

Lemma regex_exec_past_end (value : jsstring) (lastIndex : nat) :
  length value <= lastIndex -> regex_exec value lastIndex = (None, 0).
Proof.
  intros H. unfold regex_exec. rewrite drop_ge by exact H. reflexivity.
Qed.

Lemma fields_loop_run (value : jsstring) (fuel lastIndex : nat)
    (fieldsValue : jsstring) :
  length value < fuel + lastIndex ->
  while_loop value lastIndex fieldsValue
    (fields_loop fuel value lastIndex fieldsValue).
Proof.
  revert lastIndex fieldsValue.
  induction fuel as [|fuel IH]; intros lastIndex fieldsValue H.
  - apply while_exit. rewrite regex_exec_past_end by lia. reflexivity.
  - simpl. destruct (regex_exec value lastIndex) as [[m|] lastIndex'] eqn:E.
    + eapply while_step; [exact E |]. apply IH.
      apply regex_exec_Some in E. lia.
    + apply while_exit. rewrite E. reflexivity.
Qed.

(** The loop of [transformLogs] terminates: [fieldsValue_of value] is the
    value of [fieldsValue] at the exit of the loop that starts with
    [lastIndex = 0] and [fieldsValue = value]. *)
Theorem fieldsValue_of_run (value : jsstring) :
  while_loop value 0 value (fieldsValue_of value).
Proof. apply fields_loop_run. lia. Qed.

(** *** Greedy matching of the key *)

Lemma key_backtrack_max (s : jsstring) (n k j : nat) :
  key_backtrack s n = Some k -> k < j <= n -> s !! j <> Some c_eq.
Proof.
  induction n as [|n IH]; simpl; [discriminate |].
  destruct (s !! S n) as [c|] eqn:E.
  - destruct (c =? c_eq)%N eqn:Ec.
    + intros [= <-]. lia.
    + intros H Hj. destruct (decide (j = S n)) as [-> | Hne].
      * rewrite E. intros [= ->]. discriminate.
      * apply IH; [exact H | lia].
  - intros H Hj. destruct (decide (j = S n)) as [-> | Hne].
    + rewrite E. discriminate.
    + apply IH; [exact H | lia].
Qed.

Lemma key_backtrack_complete (s : jsstring) (n j : nat) :
  1 <= j <= n -> s !! j = Some c_eq -> is_Some (key_backtrack s n).
Proof.
  induction n as [|n IH]; intros Hj E; [lia |]. simpl.
  destruct (decide (j = S n)) as [-> | Hne].
  - rewrite E. simpl. eauto.
  - destruct (s !! S n) as [c|]; [destruct (c =? c_eq)%N; [eauto |] |];
      apply IH; (lia || exact E).
Qed.

Lemma nonspace_run_lookup (s : jsstring) (i : nat) :
  i < nonspace_run s -> exists c, s !! i = Some c /\ is_space c = false.
Proof.
  revert i. induction s as [|c r IH]; intros i Hi; simpl in Hi; [lia |].
  destruct (is_space c) eqn:E; [lia |].
  destruct i as [|i]; [exists c; auto |].
  apply IH. lia.
Qed.

Lemma nonspace_run_end (s : jsstring) (c : char) :
  s !! nonspace_run s = Some c -> is_space c = true.
Proof.
  induction s as [|d r IH]; simpl; [discriminate |].
  destruct (is_space d) eqn:E; [intros [= <-]; exact E | exact IH].
Qed.

Lemma nonspace_run_drop (s : jsstring) (j : nat) :
  j <= nonspace_run s -> nonspace_run (drop j s) = nonspace_run s - j.
Proof.
  revert j. induction s as [|c r IH]; intros j Hj.
  - rewrite drop_nil. reflexivity.
  - destruct j as [|j]; [rewrite Nat.sub_0_r; reflexivity |].
    simpl in *. destruct (is_space c); [lia |]. apply IH. lia.
Qed.

Lemma nonspace_run_app (key rest : jsstring) :
  Forall (fun d => is_space d = false) key ->
  nonspace_run (key ++ rest) = length key + nonspace_run rest.
Proof.
  induction 1 as [|d key Hd _ IH]; [reflexivity |].
  simpl. rewrite Hd, IH. reflexivity.
Qed.

Lemma is_space_eq : is_space c_eq = false.
Proof. reflexivity. Qed.

Lemma match_key_run (s : jsstring) (k : nat) :
  match_key s = Some k -> S k <= nonspace_run s.
Proof.
  intros H. apply match_key_Some in H as ([_ H1] & H2 & _).
  destruct (decide (k = nonspace_run s)) as [-> | Hne]; [| lia].
  apply nonspace_run_end in H2. discriminate.
Qed.

(** After a match of [(\S+)=] the rest of the run has no further match: the
    greedy key has taken the last ['='] of the run. *)
Lemma match_key_rest (s : jsstring) (k : nat) :
  match_key s = Some k -> match_key (drop (S k) s) = None.
Proof.
  intros H. pose proof (match_key_run _ _ H) as Hrun.
  destruct (match_key (drop (S k) s)) as [k2|] eqn:E; [| reflexivity].
  apply match_key_Some in E as ([H1 H2] & H3 & _).
  rewrite nonspace_run_drop in H2 by exact Hrun.
  rewrite lookup_drop in H3.
  unfold match_key in H.
  destruct (key_backtrack_max _ _ _ (S k + k2) H); [lia | exact H3].
Qed.

(** A key followed by ['='] at the head of [s] is matched by [(\S+)=]. *)
Lemma match_key_marker (key rest : jsstring) :
  key <> [] -> Forall (fun d => is_space d = false) key ->
  is_Some (match_key (key ++ c_eq :: rest)).
Proof.
  intros Hne Hkey. unfold match_key.
  apply (key_backtrack_complete _ _ (length key)).
  - rewrite nonspace_run_app by exact Hkey. simpl.
    destruct key; [done | simpl; lia].
  - rewrite lookup_app_r by lia. rewrite Nat.sub_diag. reflexivity.
Qed.

(** Where a spaced marker stands in a text, the pattern matches. *)
Lemma match_here_marker (x rest : jsstring) :
  spaced_marker x -> is_Some (match_here (x ++ rest)).
Proof.
  intros (c & key & -> & Hc & Hne & Hkey). simpl. rewrite Hc.
  rewrite <- app_assoc. simpl.
  destruct (match_key_marker key rest Hne Hkey) as [k Hk].
  rewrite Hk. eauto.
Qed.

Lemma match_here_key (s : jsstring) (w k : nat) :
  match_here s = Some (w, k) ->
  match_key (drop w s) = Some k /\
  (w = 0 \/ w = 1 /\ exists c, s !! 0 = Some c /\ is_space c = true).
Proof.
  destruct s as [|c r]; simpl; [discriminate |].
  assert (H0 : pair 0 <$> match_key (c :: r) = Some (w, k) ->
               match_key (drop w (c :: r)) = Some k /\
               (w = 0 \/ w = 1 /\ exists c', Some c = Some c' /\ is_space c' = true)).
  { destruct (match_key (c :: r)) as [k'|] eqn:E; [| discriminate].
    intros [= <- <-]. split; [exact E | left; reflexivity]. }
  destruct (is_space c) eqn:Ec; [| exact H0].
  destruct (match_key r) as [k'|] eqn:E; [| exact H0].
  intros [= <- <-]. split; [exact E | right; eauto].
Qed.

(** A match that takes no whitespace is found only at the index where the
    search starts. *)
Lemma exec_scan_no_space (s : jsstring) (i j k : nat) :
  exec_scan s i = Some (j, (0, k)) -> j = i.
Proof.
  revert i. induction s as [|c r IH]; intros i; [discriminate |].
  rewrite exec_scan_cons.
  destruct (match_here (c :: r)) as [wk|] eqn:E; [intros [= <- _]; reflexivity |].
  intros H. pose proof (IH _ H) as ->. exfalso.
  apply exec_scan_Some in H as (_ & _ & H). rewrite Nat.sub_diag in H.
  apply match_here_key in H as [H _]. rewrite !drop_0 in H. simpl in E.
  rewrite H in E. destruct (is_space c) eqn:Ec; [discriminate |].
  pose proof (match_key_run _ _ H) as Hrun.
  apply match_key_Some in H as ([H1 _] & H2 & _).
  destruct (key_backtrack_complete (c :: r) (nonspace_run (c :: r)) (S k))
    as [k' Hk'].
  - simpl. rewrite Ec. lia.
  - exact H2.
  - unfold match_key in E. rewrite Hk' in E. discriminate.
Qed.

Lemma exec_scan_first (s : jsstring) (i j : nat) (wk : nat * nat) (q : nat) :
  exec_scan s i = Some (j, wk) -> q < j - i -> match_here (drop q s) = None.
Proof.
  revert i q. induction s as [|c r IH]; intros i q; [discriminate |].
  rewrite exec_scan_cons.
  destruct (match_here (c :: r)) as [wk'|] eqn:E.
  - intros [= <- _]. lia.
  - intros H Hq. destruct q as [|q]; [exact E |].
    simpl. apply (IH (S i)); [exact H | lia].
Qed.

(** *** Occurrences and replacement *)

Lemma starts_with_app (p r : jsstring) : starts_with p (p ++ r) = true.
Proof.
  induction p as [|a p IH]; [reflexivity |].
  simpl. rewrite N.eqb_refl. exact IH.
Qed.

Lemma starts_with_true (p s : jsstring) :
  starts_with p s = true <-> exists r, s = p ++ r.
Proof.
  split.
  - revert s. induction p as [|a p IH]; intros s H; [exists s; reflexivity |].
    destruct s as [|b s]; [discriminate |]. simpl in H.
    apply andb_true_iff in H as [H1 H2]. apply N.eqb_eq in H1 as ->.
    destruct (IH _ H2) as [r ->]. exists r. reflexivity.
  - intros [r ->]. apply starts_with_app.
Qed.

Lemma indexOf_first (s p : jsstring) (i : nat) :
  (forall q, q < i -> starts_with p (drop q s) = false) ->
  starts_with p (drop i s) = true ->
  indexOf s p = Some i.
Proof.
  revert i. induction s as [|c s IH]; intros i Hlt Hi.
  - rewrite drop_nil in Hi. destruct i as [|i]; simpl.
    + rewrite Hi. reflexivity.
    + specialize (Hlt 0 ltac:(lia)). rewrite drop_0 in Hlt. congruence.
  - destruct i as [|i].
    + rewrite drop_0 in Hi. cbn [indexOf]. rewrite Hi. reflexivity.
    + cbn [indexOf]. pose proof (Hlt 0 ltac:(lia)) as H0.
      rewrite drop_0 in H0. rewrite H0.
      rewrite (IH i); [reflexivity | | exact Hi].
      intros q Hq. apply (Hlt (S q)). lia.
Qed.

Lemma replace_first (b p a repl : jsstring) :
  (forall q, q < length b -> starts_with p (drop q (b ++ p ++ a)) = false) ->
  replace (b ++ p ++ a) p repl = b ++ GetSubstitution p b a repl ++ a.
Proof.
  intros H. unfold replace.
  rewrite (indexOf_first _ _ (length b)).
  - assert (Ha : drop (length b + length p) (b ++ p ++ a) = a).
    { rewrite app_assoc. apply drop_app_length'. symmetry. apply length_app. }
    rewrite take_app_length, Ha. reflexivity.
  - exact H.
  - rewrite drop_app_length. apply starts_with_app.
Qed.

Lemma GetSubstitution_no_dollar (m b a r : jsstring) :
  c_dollar ∉ r -> GetSubstitution m b a r = r.
Proof.
  induction r as [|c r IH]; intros H; [reflexivity |].
  apply not_elem_of_cons in H as [H1 H2]. cbn [GetSubstitution].
  destruct (c =? c_dollar)%N eqn:E.
  - apply N.eqb_eq in E. congruence.
  - rewrite IH by exact H2. reflexivity.
Qed.

(** The replacement text of a key without ['$'] stands for itself: [$k] and
    [$_] are no replacement patterns. *)
Lemma GetSubstitution_key_replacement (m b a key : jsstring) :
  c_dollar ∉ key ->
  GetSubstitution m b a (key_replacement key) = key_replacement key.
Proof.
  intros H. unfold key_replacement, key_token.
  assert (Htail : GetSubstitution m b a (key ++ [c_eq]) = key ++ [c_eq]).
  { apply GetSubstitution_no_dollar. rewrite elem_of_app, list_elem_of_singleton.
    intros [H1 | H1]; [exact (H H1) | discriminate]. }
  cbn. rewrite Htail. reflexivity.
Qed.

(** *** Texts without ['$'] *)

Lemma no_dollar_drop (v : jsstring) (n : nat) :
  c_dollar ∉ v -> c_dollar ∉ drop n v.
Proof.
  intros H Hin. apply H. rewrite <- (take_drop n v).
  apply elem_of_app. right. exact Hin.
Qed.

Lemma no_dollar_take (v : jsstring) (n : nat) :
  c_dollar ∉ v -> c_dollar ∉ take n v.
Proof.
  intros H Hin. apply H. rewrite <- (take_drop n v).
  apply elem_of_app. left. exact Hin.
Qed.

Lemma no_dollar_substring (v : jsstring) (i j : nat) :
  c_dollar ∉ v -> c_dollar ∉ substring v i j.
Proof. intros H. apply no_dollar_take, no_dollar_drop, H. Qed.

Lemma nonspace_key_replacement (key : jsstring) :
  Forall (fun d => is_space d = false) key ->
  Forall (fun d => is_space d = false) (key_replacement key).
Proof.
  intros H. unfold key_replacement. apply Forall_app. split.
  - unfold key_token. cbn. repeat constructor.
  - apply Forall_app. split; [exact H | repeat constructor].
Qed.

(** *** The text before a match holds no earlier occurrence of it *)

Lemma marker_free_nil : marker_free [].
Proof. intros x rest q _ _ Hq. simpl in Hq. lia. Qed.

(** A spaced marker without ['$'] cannot end inside a separator token. *)
Lemma marker_not_into_token (x t k key rest r : jsstring) :
  spaced_marker x -> c_dollar ∉ x ->
  x = t ++ k -> k <> [] ->
  key_replacement key ++ rest = k ++ r -> False.
Proof.
  intros (c & key' & Hx & _ & _ & _) Hd Ht Hk Heq.
  assert (Hlast : last k = Some c_eq).
  { assert (Hl : last x = Some c_eq)
      by (rewrite Hx; change (c :: key' ++ [c_eq]) with ((c :: key') ++ [c_eq]);
          apply last_snoc).
    rewrite Ht, last_app in Hl.
    destruct (last k) as [y|] eqn:E; [exact Hl |].
    apply last_None in E. contradiction. }
  unfold key_replacement, key_token in Heq. cbn in Heq.
  destruct k as [|k0 [|k1 [|k2 k3]]]; [contradiction | | |].
  - injection Heq as <- _. discriminate.
  - injection Heq as <- <- _. discriminate.
  - injection Heq as <- <- <- _. apply Hd. rewrite Ht.
    apply elem_of_app. right. right. right. left.
Qed.

Lemma marker_free_step (P t tail key : jsstring) :
  marker_free P ->
  (forall q, q < length t -> match_here (drop q (t ++ tail)) = None) ->
  Forall (fun d => is_space d = false) key ->
  marker_free (P ++ t ++ key_replacement key).
Proof.
  intros HP Ht Hkey x rest q Hx Hd Hq.
  rewrite <- !app_assoc.
  destruct (decide (q < length P)) as [Hlt | Hge].
  { apply HP; assumption. }
  rewrite drop_app_ge by lia.
  destruct (decide (q - length P < length t)) as [Hlt | Hge'].
  - rewrite drop_app_le by lia.
    destruct (starts_with x _) eqn:E; [exfalso | reflexivity].
    apply starts_with_true in E as [r Hr].
    assert (Hin : forall k, drop (q - length P) t = x ++ k -> False).
    { intros k Hk. specialize (Ht _ Hlt).
      rewrite drop_app_le, Hk, <- app_assoc in Ht by lia.
      destruct (match_here_marker x (k ++ tail) Hx) as [wk Hwk]. congruence. }
    apply app_eq_inv in Hr as [(k & Hk & _) | (k & Hk & Hk')].
    + exact (Hin k Hk).
    + destruct (decide (k = [])) as [-> | Hne].
      * apply (Hin []). rewrite app_nil_r in Hk |- *. symmetry. exact Hk.
      * exact (marker_not_into_token _ _ _ _ _ _ Hx Hd Hk Hne Hk').
  - rewrite drop_app_ge by lia.
    rewrite !length_app in Hq.
    rewrite drop_app_le by lia.
    pose proof (nonspace_key_replacement key Hkey) as HR.
    apply (Forall_drop _ (q - length P - length t)) in HR.
    destruct (drop (q - length P - length t) (key_replacement key))
      as [|d R'] eqn:ER.
    { apply (f_equal length) in ER. rewrite length_drop in ER.
      cbn [length] in ER. lia. }
    apply Forall_cons in HR as [Hdsp _].
    destruct Hx as (c & key' & -> & Hc & _). simpl.
    destruct (c =? d)%N eqn:Ecd; [| reflexivity].
    apply N.eqb_eq in Ecd. congruence.
Qed.

(** *** The shape of a match *)

Lemma nonspace_run_take (s : jsstring) (k : nat) :
  k <= nonspace_run s -> Forall (fun d => is_space d = false) (take k s).
Proof.
  revert k. induction s as [|c r IH]; intros k Hk.
  - rewrite take_nil. constructor.
  - destruct k as [|k]; [constructor |]. simpl in *.
    destruct (is_space c) eqn:E; [lia |].
    constructor; [exact E | apply IH; lia].
Qed.

Lemma match_key_shape (s : jsstring) (k : nat) :
  match_key s = Some k ->
  take (S k) s = take k s ++ [c_eq] /\ take k s <> [] /\
  Forall (fun d => is_space d = false) (take k s).
Proof.
  intros H. apply match_key_Some in H as ([H1 H2] & H3 & H4).
  split; [apply take_S_r, H3 |]. split.
  - intros E. apply (f_equal length) in E.
    rewrite length_take in E. simpl in E. lia.
  - apply nonspace_run_take, H2.
Qed.

Lemma match_here_shape (s : jsstring) (k : nat) :
  match_here s = Some (1, k) -> spaced_marker (take (1 + k + 1) s).
Proof.
  intros H. apply match_here_key in H as [Hk [Hw | (_ & c & Hc & Hsp)]];
    [discriminate |].
  destruct s as [|c' r]; [discriminate |]. injection Hc as ->.
  simpl in Hk. rewrite drop_0 in Hk.
  apply match_key_shape in Hk as (Ht & Hne & Hkey).
  exists c, (take k r). replace (1 + k + 1) with (S (S k)) by lia.
  rewrite firstn_cons, Ht. auto.
Qed.

(** What [regex.exec] returns, spelled out. *)
Lemma regex_exec_match (value : jsstring) (lastIndex lastIndex' : nat)
    (m : RegExpMatch) :
  regex_exec value lastIndex = (Some m, lastIndex') ->
  exists s w k,
    exec_scan (drop lastIndex value) lastIndex = Some (s, (w, k)) /\
    match_here (drop s value) = Some (w, k) /\
    m_index m = s /\
    m_0 m = take (w + k + 1) (drop s value) /\
    m_3 m = take k (drop (s + w) value) /\
    lastIndex' = s + w + k + 1 /\ m_end m = lastIndex' /\
    lastIndex <= s /\ lastIndex' <= length value /\
    drop lastIndex value
    = substring value lastIndex s ++ m_0 m ++ drop lastIndex' value.
Proof.
  intros H. pose proof (regex_exec_Some _ _ _ _ H) as Hlt.
  unfold regex_exec in H.
  destruct (exec_scan (drop lastIndex value) lastIndex) as [[s [w k]]|] eqn:E;
    [| discriminate].
  injection H as <- <-. exists s, w, k.
  apply exec_scan_Some in E as E'. destruct E' as (H1 & H2 & H3).
  rewrite drop_drop in H3. replace (lastIndex + (s - lastIndex)) with s in H3 by lia.
  assert (Hlen : length (take (w + k + 1) (drop s value)) = w + k + 1).
  { rewrite length_take, length_drop. lia. }
  split; [reflexivity |]. split; [exact H3 |].
  do 4 (split; [reflexivity |]).
  split; [unfold m_end; simpl; rewrite Hlen; lia |].
  split; [exact H1 |]. split; [lia |].
  simpl. unfold substring.
  rewrite <- (take_drop (s - lastIndex) (drop lastIndex value)) at 1.
  f_equal. rewrite drop_drop.
  replace (lastIndex + (s - lastIndex)) with s by lia.
  rewrite <- (take_drop (w + k + 1) (drop s value)) at 1.
  f_equal. rewrite drop_drop. f_equal. lia.
Qed.

(** *** The loop on a value without ['$'] *)

Section NoDollar.

Variable value : jsstring.
Hypothesis value_no_dollar : c_dollar ∉ value.

(** One iteration: the match found from [lastIndex] is replaced where it
    stands, and by the separator token, its key and an ['=']. *)
Lemma replace_match (lastIndex lastIndex' : nat) (m : RegExpMatch)
    (P : jsstring) :
  marker_free P ->
  lastIndex = 0 /\ P = [] \/ match_key (drop lastIndex value) = None ->
  regex_exec value lastIndex = (Some m, lastIndex') ->
  replace (P ++ drop lastIndex value) (m_0 m) (key_replacement (m_3 m))
  = (P ++ substring value lastIndex (m_index m) ++ key_replacement (m_3 m))
      ++ drop lastIndex' value
  /\ marker_free (P ++ substring value lastIndex (m_index m)
                    ++ key_replacement (m_3 m))
  /\ match_key (drop lastIndex' value) = None.
Proof.
  intros HP Hinv E.
  apply regex_exec_match in E
    as (s & w & k & Escan & Ehere & Hi & H0 & H3 & -> & Hend & Hle & Hlen & Hdrop).
  rewrite Hi.
  pose proof (match_here_key _ _ _ Ehere) as [Hkey Hw].
  rewrite drop_drop in Hkey.
  assert (Hnd3 : c_dollar ∉ m_3 m)
    by (rewrite H3; apply no_dollar_take, no_dollar_drop, value_no_dollar).
  assert (Hsp3 : Forall (fun d => is_space d = false) (m_3 m))
    by (rewrite H3; apply match_key_shape, Hkey).
  assert (Hfirst : forall q, q < s - lastIndex ->
            match_here (drop q (drop lastIndex value)) = None)
    by (intros q Hq; exact (exec_scan_first _ _ _ _ _ Escan Hq)).
  assert (Hsub : length (substring value lastIndex s) = s - lastIndex).
  { unfold substring. rewrite length_take, length_drop. lia. }
  split; [| split].
  - rewrite Hdrop, (app_assoc P), replace_first.
    + rewrite GetSubstitution_key_replacement by exact Hnd3.
      rewrite <- !app_assoc. reflexivity.
    + intros q Hq. rewrite <- app_assoc, <- Hdrop.
      destruct Hw as [-> | [-> _]].
      * (* no whitespace taken: the match is at the very start *)
        apply exec_scan_no_space in Escan as ->.
        rewrite Nat.add_0_r in Hkey.
        destruct Hinv as [[-> ->] | Hnone]; [| congruence].
        rewrite length_app, Hsub in Hq. simpl in Hq. lia.
      * assert (Hm : spaced_marker (m_0 m))
          by (rewrite H0; apply match_here_shape, Ehere).
        assert (Hd0 : c_dollar ∉ m_0 m)
          by (rewrite H0; apply no_dollar_take, no_dollar_drop, value_no_dollar).
        destruct (decide (q < length P)) as [Hlt | Hge].
        { apply HP; assumption. }
        rewrite drop_app_ge by lia.
        rewrite length_app, Hsub in Hq.
        destruct (starts_with _ _) eqn:Est; [exfalso | reflexivity].
        apply starts_with_true in Est as [r Hr].
        destruct (match_here_marker (m_0 m) r Hm) as [wk Hwk].
        rewrite <- Hr, Hfirst in Hwk by lia. discriminate.
  - apply (marker_free_step P _ (drop s value)); [exact HP | | exact Hsp3].
    intros q Hq. rewrite Hsub in Hq.
    replace (substring value lastIndex s ++ drop s value)
      with (drop lastIndex value); [apply Hfirst, Hq |].
    unfold substring.
    rewrite <- (take_drop (s - lastIndex) (drop lastIndex value)) at 1.
    f_equal. rewrite drop_drop. f_equal. lia.
  - apply match_key_rest in Hkey. rewrite drop_drop in Hkey.
    replace (s + w + k + 1) with (s + w + S k) by lia. exact Hkey.
Qed.

Lemma fields_loop_assemble (fuel lastIndex : nat) (P : jsstring) :
  marker_free P ->
  lastIndex = 0 /\ P = [] \/ match_key (drop lastIndex value) = None ->
  fields_loop fuel value lastIndex (P ++ drop lastIndex value)
  = P ++ assemble value lastIndex (regex_matches fuel value lastIndex).
Proof.
  revert lastIndex P. induction fuel as [|fuel IH]; intros lastIndex P HP Hinv.
  - reflexivity.
  - cbn [fields_loop regex_matches].
    destruct (regex_exec value lastIndex) as [[m|] lastIndex'] eqn:E;
      [| reflexivity].
    destruct (replace_match _ _ _ _ HP Hinv E) as (Hrep & HP' & Hinv').
    rewrite Hrep, IH by (assumption || (right; assumption)).
    cbn [assemble].
    apply regex_exec_match in E
      as (s & w & k & _ & _ & _ & _ & _ & _ & -> & _).
    rewrite <- !app_assoc. reflexivity.
Qed.

(** The text that the loop leaves in [fieldsValue]. *)
Lemma fieldsValue_of_assemble :
  fieldsValue_of value = assemble value 0 (matches_of value).
Proof.
  unfold fieldsValue_of, matches_of.
  exact (fields_loop_assemble (S (length value)) 0 [] marker_free_nil
           (or_introl (conj eq_refl eq_refl))).
Qed.

End NoDollar.

(** *** Splitting at the separator token *)

Lemma split_scan_skip (sep x r cur : jsstring) :
  split_scan sep (x ++ r) (length x) cur = split_scan sep r 0 cur.
Proof.
  induction x as [|c x IH]; [reflexivity |].
  destruct r; simpl; exact IH.
Qed.

Lemma key_token_cons :
  key_token = 95%N :: 95%N :: c_dollar :: str "key$__".
Proof. reflexivity. Qed.

Lemma split_scan_token (r cur : jsstring) :
  split_scan key_token (key_token ++ r) 0 cur
  = cur :: split_scan key_token r 0 [].
Proof.
  assert (E : starts_with key_token (key_token ++ r) = true)
    by apply starts_with_app.
  change (key_token ++ r) with (95%N :: (str "_$key$__" ++ r)) in *.
  cbn [split_scan]. rewrite E.
  exact (f_equal (cons cur) (split_scan_skip key_token (str "_$key$__") r [])).
Qed.

(** The token does not start inside a text without ['$'] that is followed by
    the end of the string or by a token. *)
Lemma starts_with_token_text (p rest : jsstring) :
  p <> [] -> c_dollar ∉ p ->
  rest = [] \/ (exists r, rest = key_token ++ r) ->
  starts_with key_token (p ++ rest) = false.
Proof.
  intros Hne Hd Hrest. rewrite key_token_cons.
  destruct p as [|a [|b [|c p]]]; [contradiction | | |].
  - destruct Hrest as [-> | [r ->]]; cbn [app starts_with].
    + destruct (95 =? a)%N; reflexivity.
    + rewrite key_token_cons. cbn [app starts_with].
      destruct (95 =? a)%N; reflexivity.
  - destruct Hrest as [-> | [r ->]]; cbn [app starts_with].
    + destruct (95 =? a)%N, (95 =? b)%N; reflexivity.
    + rewrite key_token_cons. cbn [app starts_with].
      destruct (95 =? a)%N, (95 =? b)%N; reflexivity.
  - cbn [app starts_with].
    assert (Hc : (c_dollar =? c)%N = false).
    { apply N.eqb_neq. intros <-. apply Hd. right. right. left. }
    rewrite Hc. destruct (95 =? a)%N, (95 =? b)%N; reflexivity.
Qed.

Lemma split_scan_text (p rest cur : jsstring) :
  c_dollar ∉ p ->
  rest = [] \/ (exists r, rest = key_token ++ r) ->
  split_scan key_token (p ++ rest) 0 cur
  = split_scan key_token rest 0 (cur ++ p).
Proof.
  revert cur. induction p as [|c p IH]; intros cur Hd Hrest.
  - rewrite app_nil_r. reflexivity.
  - apply not_elem_of_cons in Hd as Hd'. destruct Hd' as [_ Hd'].
    pose proof (starts_with_token_text (c :: p) rest ltac:(discriminate) Hd Hrest)
      as E.
    change ((c :: p) ++ rest) with (c :: (p ++ rest)) in *.
    cbn [split_scan]. rewrite E, IH by assumption.
    rewrite <- app_assoc. reflexivity.
Qed.

(** The text made by the loop starts with a text without ['$'] that is
    followed by the end of the string or by a token. *)
Lemma assemble_head (value : jsstring) (i : nat) (ms : list RegExpMatch) :
  c_dollar ∉ value ->
  exists t rest, assemble value i ms = t ++ rest /\ (c_dollar ∉ t) /\
    (rest = [] \/ exists r, rest = key_token ++ r).
Proof.
  intros Hd. destruct ms as [|m ms].
  - exists (drop i value), []. rewrite app_nil_r.
    split; [reflexivity |]. split; [apply no_dollar_drop, Hd | left; reflexivity].
  - exists (substring value i (m_index m)),
      (key_replacement (m_3 m) ++ assemble value (m_end m) ms).
    split; [reflexivity |]. split; [apply no_dollar_substring, Hd |].
    right. unfold key_replacement. rewrite <- app_assoc. eauto.
Qed.

Lemma split_scan_assemble (value : jsstring) (ms : list RegExpMatch)
    (i : nat) (cur : jsstring) :
  c_dollar ∉ value ->
  Forall (fun m => c_dollar ∉ m_3 m) ms ->
  split_scan key_token (assemble value i ms) 0 cur = pieces value i cur ms.
Proof.
  intros Hd Hms. revert i cur.
  induction Hms as [|m ms Hm _ IH]; intros i cur.
  - cbn [assemble pieces]. rewrite <- (app_nil_r (drop i value)) at 1.
    rewrite split_scan_text; [reflexivity | apply no_dollar_drop, Hd | auto].
  - cbn [assemble pieces]. unfold key_replacement.
    rewrite <- !app_assoc.
    rewrite split_scan_text; [| apply no_dollar_substring, Hd | eauto].
    rewrite split_scan_token. f_equal.
    rewrite <- IH.
    destruct (assemble_head value (m_end m) ms Hd) as (t & rest & -> & Ht & Hrest).
    rewrite (app_assoc (m_3 m)), (app_assoc _ t).
    rewrite !split_scan_text; try assumption.
    + rewrite app_nil_l, <- app_assoc. reflexivity.
    + rewrite !not_elem_of_app. split; [split; [exact Hm |] | exact Ht].
      rewrite list_elem_of_singleton. discriminate.
Qed.

Lemma pieces_segments (value : jsstring) (m : RegExpMatch)
    (ms : list RegExpMatch) :
  pieces value (m_end m) (m_3 m ++ [c_eq]) ms = marker_segments value (m :: ms).
Proof.
  revert m. induction ms as [|m' ms IH]; intros m.
  - cbn [pieces marker_segments]. unfold substring.
    rewrite take_ge by (rewrite length_drop; lia).
    rewrite <- app_assoc. reflexivity.
  - cbn [pieces]. rewrite IH. cbn [marker_segments].
    rewrite <- app_assoc. reflexivity.
Qed.

Lemma tail_pieces (value : jsstring) (i : nat) (cur : jsstring)
    (ms : list RegExpMatch) :
  tail (pieces value i cur ms) = marker_segments value ms.
Proof.
  destruct ms as [|m ms]; [reflexivity |].
  cbn [pieces tail]. apply pieces_segments.
Qed.

(** *** The matches *)

Lemma regex_matches_run (value : jsstring) (fuel lastIndex : nat) :
  length value < fuel + lastIndex ->
  exec_run value lastIndex (regex_matches fuel value lastIndex).
Proof.
  revert lastIndex. induction fuel as [|fuel IH]; intros lastIndex H.
  - apply exec_run_null. rewrite regex_exec_past_end by lia. reflexivity.
  - simpl. destruct (regex_exec value lastIndex) as [[m|] lastIndex'] eqn:E.
    + eapply exec_run_match; [exact E |]. apply IH.
      apply regex_exec_Some in E. lia.
    + apply exec_run_null. rewrite E. reflexivity.
Qed.

(** [matches_of value] is the full run of [regex.exec] over [value], from
    [lastIndex = 0] to the first [null]. *)
Lemma matches_of_run (value : jsstring) : exec_run value 0 (matches_of value).
Proof. apply regex_matches_run. lia. Qed.

Lemma regex_matches_no_dollar (value : jsstring) (fuel lastIndex : nat) :
  c_dollar ∉ value ->
  Forall (fun m => c_dollar ∉ m_3 m) (regex_matches fuel value lastIndex).
Proof.
  intros Hd. revert lastIndex. induction fuel as [|fuel IH]; intros lastIndex.
  - constructor.
  - simpl. destruct (regex_exec value lastIndex) as [[m|] lastIndex'] eqn:E;
      [| constructor].
    constructor; [| apply IH].
    apply regex_exec_match in E as (s & w & k & _ & _ & _ & _ & -> & _).
    apply no_dollar_take, no_dollar_drop, Hd.
Qed.

(** On a value without ['$'] the pieces that become fields are the segments
    of the forward scan over the key markers. *)
Theorem field_props_segments (value : jsstring) :
  c_dollar ∉ value ->
  field_props value = marker_segments value (matches_of value).
Proof.
  intros Hd. unfold field_props, split.
  rewrite (fieldsValue_of_assemble value Hd).
  rewrite split_scan_assemble;
    [apply tail_pieces | exact Hd | apply regex_matches_no_dollar, Hd].
Qed.

Lemma regex_matches_sorted (value : jsstring) (fuel lastIndex : nat) :
  StronglySorted (fun m m' => m_index m < m_index m')
    (regex_matches fuel value lastIndex) /\
  Forall (fun m => lastIndex <= m_index m) (regex_matches fuel value lastIndex).
Proof.
  revert lastIndex. induction fuel as [|fuel IH]; intros lastIndex.
  - split; constructor.
  - simpl. destruct (regex_exec value lastIndex) as [[m|] lastIndex'] eqn:E;
      [| split; constructor].
    destruct (IH lastIndex') as [Hs Hf].
    apply regex_exec_match in E
      as (s & w & k & _ & _ & Hi & _ & _ & -> & _ & Hle & _).
    split.
    + constructor; [exact Hs |].
      eapply Forall_impl; [exact Hf |]. simpl. intros m' Hm'. lia.
    + constructor; [lia |].
      eapply Forall_impl; [exact Hf |]. simpl. intros m' Hm'. lia.
Qed.

Lemma length_marker_segments (value : jsstring) (ms : list RegExpMatch) :
  length (marker_segments value ms) = length ms.
Proof. induction ms as [|m ms IH]; [reflexivity |]. simpl. rewrite IH. reflexivity. Qed.

Lemma marker_segments_lookup (value : jsstring) (ms : list RegExpMatch)
    (i : nat) (m : RegExpMatch) :
  ms !! i = Some m ->
  exists t, marker_segments value ms !! i = Some (m_3 m ++ c_eq :: t).
Proof.
  revert i. induction ms as [|m' ms IH]; intros i H; [discriminate |].
  destruct i as [|i].
  - injection H as ->. cbn [marker_segments]. eexists. reflexivity.
  - exact (IH i H).
Qed.

Lemma before_eq_app (key t : jsstring) :
  before_eq (key ++ c_eq :: t) = before_eq key.
Proof.
  induction key as [|c key IH]; [reflexivity |].
  simpl. destruct (c =? c_eq)%N; [reflexivity | rewrite IH; reflexivity].
Qed.

(** C5, as stated, fails: the value "__$key$__" has no match of the key
    marker (it has no ['=']) and yet one field comes out of it, with the
    empty key and the value [undefined]; and "a=1 b$`=2", which does not
    contain the separator token, has two matches and three fields. *)
Lemma annotation_fields_not_one_per_match :
  matches_of (str "__$key$__") = [] /\
  annotation_fields (str "__$key$__") = [ {| f_key := []; f_value := None |} ] /\
  length (matches_of (str "a=1 b$`=2")) = 2 /\
  length (annotation_fields (str "a=1 b$`=2")) = 3.
Proof. repeat split; vm_compute; reflexivity. Qed.

(** C5, amended: for every annotation value that contains no ['$'], the
    number of fields equals the number of matches of the key marker; the
    matches are found from left to right and the [i]-th field comes from the
    segment of the [i]-th match (its key is the key of that match up to its
    first ['=']); and a value without a match yields no field. *)
Theorem annotation_fields_matches (value : jsstring) :
  c_dollar ∉ value ->
  length (annotation_fields value) = length (matches_of value) /\
  StronglySorted (fun m m' => m_index m < m_index m') (matches_of value) /\
  annotation_fields value
  = field_split_all <$> marker_segments value (matches_of value) /\
  (forall i m, matches_of value !! i = Some m ->
     exists f, annotation_fields value !! i = Some f /\
               f_key f = before_eq (m_3 m)) /\
  (matches_of value = [] -> annotation_fields value = []).
Proof.
  intros Hd.
  assert (E : annotation_fields value
              = field_split_all <$> marker_segments value (matches_of value)).
  { rewrite annotation_fields_fmap, field_props_segments by exact Hd.
    reflexivity. }
  split; [rewrite E, length_fmap; apply length_marker_segments |].
  split; [apply regex_matches_sorted |].
  split; [exact E |]. split.
  - intros i m Hm. rewrite E.
    destruct (marker_segments_lookup value _ _ _ Hm) as [t Ht].
    rewrite list_lookup_fmap, Ht. eexists. split; [reflexivity |].
    apply before_eq_app.
  - intros Hnil. rewrite E, Hnil. reflexivity.
Qed.

Lemma annotation_fields_matches_witness :
  length (annotation_fields (str "foo=bar baz=qux")) = 2 /\
  f_key <$> annotation_fields (str "foo=bar baz=qux") = [str "foo"; str "baz"].
Proof.
  assert (Hd : c_dollar ∉ str "foo=bar baz=qux").
  { apply (bool_decide_unpack _). vm_compute. exact I. }
  destruct (annotation_fields_matches (str "foo=bar baz=qux") Hd)
    as (Hlen & _ & E & _).
  split.
  - rewrite Hlen. vm_compute. reflexivity.
  - rewrite E. vm_compute. reflexivity.
Defined.

(** ** Further properties of the trace transformer *)

Lemma transformTraceData_Some (trace : list Zipkin.Span) (t : Jaeger.Trace) :
  transformTraceData trace = Some t ->
  exists first rest, trace = first :: rest /\
    Jaeger.traceID t = Zipkin.traceId first /\
    Jaeger.spans t = transformSpan <$> trace /\
    Jaeger.processes t = add_processes trace dict_empty.
Proof.
  destruct trace as [|first rest]; [discriminate |].
  intros [= <-]. exists first, rest. auto.
Qed.

(** Where an entry of the table comes from: it was there before, or a span
    of that service wrote it. *)
Lemma add_processes_entry (trace : list Zipkin.Span)
    (ps : dict Jaeger.Process) (name : jsstring) (p : Jaeger.Process) :
  own (add_processes trace ps) !! name = Some p ->
  own ps !! name = Some p \/
  exists span, span ∈ trace /\ service_name span = name /\ p = process_of span.
Proof.
  revert ps. induction trace as [|span trace IH]; intros ps H; [left; exact H |].
  rewrite add_processes_cons in H. apply IH in H as [H | (sp & Hin & Hn & Hp)].
  - destruct (decide (service_name span = proto_key)) as [E | E].
    + rewrite E, own_dict_set_proto in H. left. exact H.
    + rewrite own_dict_set in H by exact E.
      destruct (decide (service_name span = name)) as [<- | Hne].
      * rewrite lookup_insert_eq in H. injection H as <-.
        right. exists span. split; [left | auto].
      * rewrite lookup_insert_ne in H by exact Hne. left. exact H.
  - right. exists sp. split; [right; exact Hin | auto].
Qed.

Lemma add_processes_dom_filter (trace : list Zipkin.Span)
    (ps : dict Jaeger.Process) :
  dom (own (add_processes trace ps)) =
  dom (own ps)
    ∪ list_to_set (filter (fun n => n <> proto_key) (service_name <$> trace)).
Proof.
  revert ps. induction trace as [|span trace IH]; intros ps.
  - simpl. symmetry. apply (right_id_L ∅ (∪)).
  - rewrite add_processes_cons, IH, fmap_cons.
    destruct (decide (service_name span = proto_key)) as [E | E].
    + rewrite filter_cons_False by (intros H; exact (H E)).
      rewrite E, own_dict_set_proto. reflexivity.
    + rewrite filter_cons_True by exact E.
      rewrite own_dict_set by exact E.
      rewrite dom_insert_L, list_to_set_cons.
      rewrite (comm_L (∪) {[service_name span]} (dom (own ps))).
      symmetry. apply (assoc_L (∪)).
Qed.

Lemma add_processes_proto_None (trace : list Zipkin.Span)
    (ps : dict Jaeger.Process) :
  proto (add_processes trace ps) = None <->
  proto ps = None /\ proto_key ∉ service_name <$> trace.
Proof.
  revert ps. induction trace as [|span trace IH]; intros ps.
  - simpl. split; [intros H; split; [exact H | apply not_elem_of_nil] | tauto].
  - rewrite add_processes_cons, IH, fmap_cons, not_elem_of_cons.
    unfold dict_set.
    destruct (decide (service_name span = proto_key)) as [E | E]; simpl.
    + split; [intros [H _]; discriminate | intros (_ & H & _); congruence].
    + split; [intros [H1 H2]; auto | intros (H1 & _ & H2); auto].
Qed.

(** X1: for every trace, empty or not in its service names, the entries of
    the process table are exactly the distinct service names of the trace
    other than "__proto__", and the prototype of the table is left alone
    exactly when no span is of the service "__proto__". *)
Theorem processes_keys (trace : list Zipkin.Span) (t : Jaeger.Trace) :
  transformTraceData trace = Some t ->
  dom (own (Jaeger.processes t))
  = list_to_set (filter (fun n => n <> proto_key) (service_name <$> trace)) /\
  (proto (Jaeger.processes t) = None <-> proto_key ∉ service_name <$> trace).
Proof.
  intros H. apply transformTraceData_Some in H as (first & rest & _ & _ & _ & ->).
  split.
  - rewrite add_processes_dom_filter. simpl.
    rewrite dom_empty_L. apply (left_id_L ∅ (∪)).
  - rewrite add_processes_proto_None. simpl. tauto.
Qed.

Lemma processes_keys_witness :
  let a := sample_span "s1" Undefined Undefined (endpoint_of "A" "10.0.0.1") in
  let p := sample_span "s2" Undefined Undefined (endpoint_of "__proto__" "10.0.0.2") in
  exists t, transformTraceData [a; p; a] = Some t /\
    dom (own (Jaeger.processes t)) = {[ str "A" ]} /\
    proto (Jaeger.processes t) <> None.
Proof.
  intros a p. eexists. split; [reflexivity |].
  destruct (processes_keys [a; p; a] _ eq_refl) as [Hdom Hproto].
  split.
  - rewrite Hdom. apply set_eq. intros x.
    rewrite elem_of_list_to_set, list_elem_of_filter, elem_of_singleton.
    split.
    + intros [Hne Hin].
      repeat (apply elem_of_cons in Hin as [-> | Hin];
              [first [reflexivity | destruct Hne; reflexivity] |]).
      inversion Hin.
    + intros ->. split; [discriminate | left].
  - intros H. apply Hproto in H. apply H. right. left.
Defined.

(** X2: every entry of the process table is the record of a span of the
    trace: its key is that span's service name, which is also the record's
    [serviceName] and the value of its [hostname] tag, and its [ip] tag holds
    that span's [ipv4]. *)
Theorem processes_entry_of_span (trace : list Zipkin.Span) (t : Jaeger.Trace)
    (name : jsstring) (p : Jaeger.Process) :
  transformTraceData trace = Some t ->
  own (Jaeger.processes t) !! name = Some p ->
  Jaeger.serviceName p = name /\
  Jaeger.p_value <$> (Jaeger.p_tags p !! 0) = Some (Str name) /\
  exists span, span ∈ trace /\ service_name span = name /\
    Jaeger.p_value <$> ip_tag p = Some (Zipkin.ipv4 (Zipkin.localEndpoint span)).
Proof.
  intros H Hp. apply transformTraceData_Some in H as (first & rest & _ & _ & _ & E).
  rewrite E in Hp. apply add_processes_entry in Hp as [Hp | (span & Hin & <- & ->)].
  - simpl in Hp. rewrite lookup_empty in Hp. discriminate.
  - split; [reflexivity |]. split; [reflexivity |].
    exists span. auto.
Qed.

Lemma processes_entry_of_span_witness :
  let a := sample_span "s1" Undefined Undefined (endpoint_of "A" "10.0.0.1") in
  exists t p, transformTraceData [a] = Some t /\
    own (Jaeger.processes t) !! str "A" = Some p /\
    Jaeger.serviceName p = str "A".
Proof.
  intros a. eexists.
  assert (Hp : own (add_processes [a] dict_empty) !! str "A" = Some (process_of a)).
  { change (add_processes [a] dict_empty)
      with (dict_set (@dict_empty Jaeger.Process) (str "A") (process_of a)).
    rewrite own_dict_set by discriminate. apply lookup_insert_eq. }
  exists (process_of a). split; [reflexivity |]. split; [exact Hp |].
  exact (proj1 (processes_entry_of_span [a] _ (str "A") (process_of a)
                  eq_refl Hp)).
Defined.

(** X3: every span of the transformed trace finds its process: unless its
    [processID] is "__proto__", the process table has an entry under the
    span's [processID], and that entry carries the same service name. *)
Theorem spans_have_processes (trace : list Zipkin.Span) (t : Jaeger.Trace)
    (s : Jaeger.Span) :
  transformTraceData trace = Some t ->
  s ∈ Jaeger.spans t ->
  Jaeger.processID s <> proto_key ->
  exists p, own (Jaeger.processes t) !! Jaeger.processID s = Some p /\
            Jaeger.serviceName p = Jaeger.processID s.
Proof.
  intros H Hs Hne.
  pose proof (transformTraceData_Some _ _ H) as (first & rest & _ & _ & Hspans & E).
  rewrite Hspans in Hs. apply list_elem_of_fmap in Hs as (span & -> & Hin).
  change (Jaeger.processID (transformSpan span)) with (service_name span) in *.
  assert (Hdom : service_name span ∈ dom (own (Jaeger.processes t))).
  { rewrite E, add_processes_dom_filter. apply elem_of_union. right.
    apply elem_of_list_to_set, list_elem_of_filter. split; [exact Hne |].
    apply list_elem_of_fmap_2, Hin. }
  apply elem_of_dom in Hdom as [p Hp]. exists p. split; [exact Hp |].
  rewrite E in Hp. apply add_processes_entry in Hp as [Hp | (sp & _ & Hn & ->)].
  - simpl in Hp. rewrite lookup_empty in Hp. discriminate.
  - exact Hn.
Qed.

Lemma spans_have_processes_witness :
  let a := sample_span "s1" Undefined Undefined (endpoint_of "A" "10.0.0.1") in
  exists t p, transformTraceData [a] = Some t /\
    own (Jaeger.processes t) !! str "A" = Some p.
Proof.
  intros a. eexists.
  destruct (spans_have_processes [a] _ (transformSpan a) eq_refl) as (p & Hp & _).
  - left.
  - discriminate.
  - exists p. split; [reflexivity | exact Hp].
Defined.

Lemma add_processes_union (trace : list Zipkin.Span) (ps : dict Jaeger.Process) :
  own (add_processes trace ps) = own (add_processes trace dict_empty) ∪ own ps.
Proof.
  revert ps. induction trace as [|span trace IH]; intros ps.
  - simpl. symmetry. apply (left_id_L ∅ (∪)).
  - rewrite !add_processes_cons, IH.
    rewrite (IH (dict_set dict_empty _ _)).
    destruct (decide (service_name span = proto_key)) as [E | E].
    + rewrite E, !own_dict_set_proto. simpl.
      rewrite (right_id_L ∅ (∪)). reflexivity.
    + rewrite !own_dict_set by exact E. simpl.
      rewrite <- (assoc_L (∪)). f_equal.
      rewrite insert_empty. apply insert_union_singleton_l.
Qed.

(** X4: the process table of a trace made of two parts is the table of the
    second part laid over the table of the first part: an entry of the
    second part wins, an entry of the first part alone is kept. *)
Theorem processes_of_concatenation (l1 l2 : list Zipkin.Span) (t : Jaeger.Trace) :
  transformTraceData (l1 ++ l2) = Some t ->
  own (Jaeger.processes t)
  = own (add_processes l2 dict_empty) ∪ own (add_processes l1 dict_empty).
Proof.
  intros H. apply transformTraceData_Some in H as (first & rest & _ & _ & _ & ->).
  rewrite add_processes_app. apply add_processes_union.
Qed.

Lemma processes_of_concatenation_witness :
  let a1 := sample_span "s1" Undefined Undefined (endpoint_of "A" "10.0.0.1") in
  let a2 := sample_span "s2" Undefined Undefined (endpoint_of "A" "10.0.0.2") in
  exists t, transformTraceData ([a1] ++ [a2]) = Some t /\
    own (Jaeger.processes t) !! str "A" = Some (process_of a2).
Proof.
  intros a1 a2. eexists. split; [reflexivity |].
  rewrite (processes_of_concatenation [a1] [a2] _ eq_refl).
  apply lookup_union_Some_l.
  change (add_processes [a2] dict_empty)
    with (dict_set (@dict_empty Jaeger.Process) (str "A") (process_of a2)).
  rewrite own_dict_set by discriminate. apply lookup_insert_eq.
Defined.

(** X5: when all spans of the trace share one [traceId], as the transformer
    expects, that id is the [traceID] of the result, of every span in it and
    of every reference of every span. *)
Theorem shared_traceId (trace : list Zipkin.Span) (t : Jaeger.Trace)
    (tid : jsstring) :
  (forall span, span ∈ trace -> Zipkin.traceId span = tid) ->
  transformTraceData trace = Some t ->
  Jaeger.traceID t = tid /\
  forall s, s ∈ Jaeger.spans t ->
    Jaeger.s_traceID s = tid /\
    forall r, r ∈ Jaeger.references s -> Jaeger.r_traceID r = tid.
Proof.
  intros Hall H.
  apply transformTraceData_Some in H as (first & rest & -> & -> & -> & _).
  split; [apply Hall; left |].
  intros s Hs. apply list_elem_of_fmap in Hs as (span & -> & Hin).
  split; [exact (Hall _ Hin) |].
  intros r Hr. simpl in Hr. unfold transformReferences in Hr.
  destruct (negb (truthy (Zipkin.parentId span))); [inversion Hr |].
  apply list_elem_of_singleton in Hr as ->. exact (Hall _ Hin).
Qed.

Lemma shared_traceId_witness :
  let a := sample_span "s1" Undefined Undefined (endpoint_of "A" "10.0.0.1") in
  let b := sample_span "s2" (Str (str "s1")) Undefined (endpoint_of "B" "10.0.0.2") in
  exists t, transformTraceData [a; b] = Some t /\ Jaeger.traceID t = str "T1".
Proof.
  intros a b. eexists. split; [reflexivity |].
  apply (shared_traceId [a; b] _ (str "T1")); [| reflexivity].
  intros span Hin.
  repeat (apply elem_of_cons in Hin as [-> | Hin]; [reflexivity |]).
  inversion Hin.
Defined.

(** ** Further properties of the annotation fields *)

Lemma before_eq_no_eq (s : jsstring) : c_eq ∉ before_eq s.
Proof.
  induction s as [|c r IH]; simpl; [apply not_elem_of_nil |].
  destruct (c =? c_eq)%N eqn:E; [apply not_elem_of_nil |].
  apply not_elem_of_cons. split; [| exact IH].
  intros <-. discriminate.
Qed.

Lemma before_eq_nonspace (s : jsstring) :
  Forall (fun d => is_space d = false) s ->
  Forall (fun d => is_space d = false) (before_eq s).
Proof.
  induction 1 as [|c r Hc _ IH]; simpl; [constructor |].
  destruct (c =? c_eq)%N; constructor; assumption.
Qed.

(** X8: no field of a log ever has an ['='] in its key or in its value,
    whatever the annotation value is. *)
Theorem transformLogs_fields_no_eq (span : Zipkin.Span) (log : Jaeger.Log)
    (f : Field) :
  log ∈ transformLogs span -> f ∈ Jaeger.fields log ->
  (c_eq ∉ f_key f) /\ forall v, f_value f = Some v -> c_eq ∉ v.
Proof.
  unfold transformLogs. destruct (Zipkin.annotations span) as [annotations|];
    [| intros H; inversion H].
  intros Hlog Hf. apply list_elem_of_fmap in Hlog as (a & -> & _).
  simpl in Hf. rewrite annotation_fields_fmap in Hf.
  apply list_elem_of_fmap in Hf as (prop & -> & _). simpl. split.
  - apply before_eq_no_eq.
  - intros v Hv. destruct (after_eq prop) as [r|]; [| discriminate].
    injection Hv as <-. apply before_eq_no_eq.
Qed.

Lemma transformLogs_fields_no_eq_witness :
  let span :=
    {| Zipkin.id := str "s1"; Zipkin.traceId := str "T1";
       Zipkin.parentId := Undefined; Zipkin.name := str "op";
       Zipkin.kind := Undefined; Zipkin.timestamp := 0; Zipkin.duration := 1;
       Zipkin.localEndpoint := endpoint_of "A" "10.0.0.1";
       Zipkin.tags := None;
       Zipkin.annotations :=
         Some [ {| Zipkin.a_timestamp := 7;
                   Zipkin.a_value := str "url=http://h/?q=1" |} ] |} in
  c_eq ∉ str "url".
Proof.
  intros span.
  refine (proj1 (transformLogs_fields_no_eq span
           {| Jaeger.l_timestamp := 7;
              Jaeger.fields := annotation_fields (str "url=http://h/?q=1") |}
           {| f_key := str "url"; f_value := Some (str "http://h/?q") |} _ _)).
  - left.
  - vm_compute. left.
Defined.

Lemma regex_exec_step (value : jsstring) (lastIndex lastIndex' : nat)
    (m : RegExpMatch) :
  regex_exec value lastIndex = (Some m, lastIndex') ->
  lastIndex + 2 <= lastIndex' <= length value.
Proof.
  intros H. apply regex_exec_match in H
    as (s & w & k & _ & Hh & _ & _ & _ & -> & _ & Hle & Hlen & _).
  apply match_here_Some in Hh. lia.
Qed.

Lemma exec_run_bound (value : jsstring) (lastIndex : nat)
    (ms : list RegExpMatch) :
  exec_run value lastIndex ms -> lastIndex <= length value ->
  2 * length ms + lastIndex <= length value.
Proof.
  induction 1 as [lastIndex _ | lastIndex m lastIndex' ms E _ IH]; intros Hle.
  - simpl. lia.
  - apply regex_exec_step in E. simpl. lia.
Qed.

(** X9: the [while] loop of [transformLogs] always ends: [regex.exec]
    returns [null] after at most half as many matches as the annotation
    value has code units. *)
Theorem transformLogs_loop_bound (value : jsstring) :
  (exists ms fieldsValue,
     exec_run value 0 ms /\ while_loop value 0 value fieldsValue) /\
  (forall ms, exec_run value 0 ms -> 2 * length ms <= length value).
Proof.
  split.
  - exists (matches_of value), (fieldsValue_of value).
    split; [apply matches_of_run | apply fields_loop_run; lia].
  - intros ms H. apply exec_run_bound in H; lia.
Qed.

Lemma transformLogs_loop_bound_witness :
  2 * length (matches_of (str "a=1 b=2")) <= 7.
Proof.
  apply (proj2 (transformLogs_loop_bound (str "a=1 b=2"))).
  apply matches_of_run.
Defined.

Lemma match_here_text (s : jsstring) (w k : nat) :
  match_here s = Some (w, k) ->
  take (w + k + 1) s = take w s ++ take k (drop w s) ++ [c_eq] /\
  take k (drop w s) <> [] /\
  Forall (fun d => is_space d = false) (take k (drop w s)) /\
  Forall (fun d => is_space d = true) (take w s) /\ w <= 1.
Proof.
  intros H. pose proof (match_here_Some _ _ _ H) as (Hw & _ & _).
  apply match_here_key in H as [Hk Hsp].
  apply match_key_shape in Hk as (Ht & Hne & Hkey).
  split; [| split; [exact Hne | split; [exact Hkey | split; [| exact Hw]]]].
  - replace (w + k + 1) with (w + S k) by lia.
    rewrite <- take_take_drop, Ht. reflexivity.
  - destruct Hsp as [-> | (-> & c & Hc & Hs)]; [constructor |].
    destruct s as [|c' r]; [discriminate |]. injection Hc as ->.
    simpl. rewrite take_0. repeat constructor. exact Hs.
Qed.

Lemma regex_matches_shape (value : jsstring) (fuel lastIndex : nat) :
  Forall (fun m =>
            m_0 m = substring value (m_index m) (m_end m) /\
            m_end m <= length value /\
            exists w, m_0 m = w ++ m_3 m ++ [c_eq] /\ length w <= 1 /\
                      Forall (fun d => is_space d = true) w /\
                      m_3 m <> [] /\
                      Forall (fun d => is_space d = false) (m_3 m))
         (regex_matches fuel value lastIndex) /\
  StronglySorted (fun m m' => m_end m <= m_index m')
    (regex_matches fuel value lastIndex) /\
  Forall (fun m => lastIndex <= m_index m) (regex_matches fuel value lastIndex).
Proof.
  revert lastIndex. induction fuel as [|fuel IH]; intros lastIndex.
  - repeat split; constructor.
  - simpl. destruct (regex_exec value lastIndex) as [[m|] lastIndex'] eqn:E;
      [| repeat split; constructor].
    destruct (IH lastIndex') as (Hshape & Hsorted & Hfrom).
    apply regex_exec_match in E
      as (s & w & k & _ & Hh & Hi & H0 & H3 & -> & Hend & Hle & Hlen & _).
    apply match_here_text in Hh as (Ht & Hne & Hkey & Hsp & Hw).
    rewrite drop_drop in Ht, Hne, Hkey. rewrite <- H3 in Ht, Hne, Hkey.
    rewrite <- H0 in Ht.
    split; [| split].
    + constructor; [| exact Hshape].
      split; [| split; [lia |]].
      * rewrite H0, Hend, Hi. unfold substring. f_equal. lia.
      * exists (take w (drop s value)).
        split; [exact Ht |]. split; [rewrite length_take; lia |].
        split; [exact Hsp | split; [exact Hne | exact Hkey]].
    + constructor; [exact Hsorted |].
      eapply Forall_impl; [exact Hfrom |]. simpl. intros m' Hm'. lia.
    + constructor; [lia |].
      eapply Forall_impl; [exact Hfrom |]. simpl. intros m' Hm'. lia.
Qed.

(** X10: every match that the loop sees lies in the annotation value at its
    index, within bounds, and is made of at most one whitespace code unit, a
    non-empty key without whitespace and an ['=']; the matches do not
    overlap and come in increasing order. *)
Theorem matches_shape (value : jsstring) :
  Forall (fun m =>
            m_0 m = substring value (m_index m) (m_end m) /\
            m_end m <= length value /\
            exists w, m_0 m = w ++ m_3 m ++ [c_eq] /\ length w <= 1 /\
                      Forall (fun d => is_space d = true) w /\
                      m_3 m <> [] /\
                      Forall (fun d => is_space d = false) (m_3 m))
         (matches_of value) /\
  StronglySorted (fun m m' => m_end m <= m_index m') (matches_of value).
Proof.
  destruct (regex_matches_shape value (S (length value)) 0) as (H1 & H2 & _).
  split; assumption.
Qed.

(** *** Values in the usual form *)

Lemma key_char_spec (c : char) :
  key_char c = true -> is_space c = false /\ c <> c_eq /\ c <> c_dollar.
Proof.
  unfold key_char. rewrite !andb_true_iff, !negb_true_iff, !N.eqb_neq. tauto.
Qed.

Lemma value_char_spec (c : char) :
  value_char c = true -> c <> c_eq /\ c <> c_dollar.
Proof.
  unfold value_char. rewrite !andb_true_iff, !negb_true_iff, !N.eqb_neq. tauto.
Qed.

Lemma Forall_not_elem (P : char -> Prop) (c : char) (l : jsstring) :
  Forall P l -> ~ P c -> c ∉ l.
Proof.
  intros H Hc Hin. rewrite Forall_forall in H. exact (Hc (H _ Hin)).
Qed.

Lemma key_no_eq (k : jsstring) :
  Forall (fun c => key_char c = true) k ->
  (c_eq ∉ k) /\ (c_dollar ∉ k) /\ Forall (fun d => is_space d = false) k.
Proof.
  intros H. split; [| split].
  - apply (Forall_not_elem _ _ _ H). intros Hc. apply key_char_spec in Hc. tauto.
  - apply (Forall_not_elem _ _ _ H). intros Hc. apply key_char_spec in Hc. tauto.
  - eapply Forall_impl; [exact H |]. intros c Hc. apply key_char_spec in Hc. tauto.
Qed.

Lemma value_no_eq (v : jsstring) :
  Forall (fun c => value_char c = true) v -> (c_eq ∉ v) /\ (c_dollar ∉ v).
Proof.
  intros H. split.
  - apply (Forall_not_elem _ _ _ H). intros Hc. apply value_char_spec in Hc. tauto.
  - apply (Forall_not_elem _ _ _ H). intros Hc. apply value_char_spec in Hc. tauto.
Qed.

(** The pattern does not match inside a text without ['='] that is followed
    by a space or by the end of the string. *)
Lemma match_here_no_eq (v tail : jsstring) :
  v <> [] -> c_eq ∉ v ->
  tail = [] \/ (exists r, tail = c_space :: r) ->
  match_here (v ++ tail) = None.
Proof.
  intros Hne Hv Htail.
  destruct (match_here (v ++ tail)) as [[w k]|] eqn:E; [exfalso | reflexivity].
  pose proof (match_here_Some _ _ _ E) as (Hw & Hk1 & Hlen).
  apply match_here_key in E as [Hk _].
  pose proof (match_key_run _ _ Hk) as Hrun.
  apply match_key_Some in Hk as (_ & Heq & _).
  rewrite lookup_drop in Heq.
  assert (Hv1 : 1 <= length v) by (destruct v; [contradiction | simpl; lia]).
  destruct (decide (w + k < length v)) as [Hlt | Hge].
  - rewrite lookup_app_l in Heq by exact Hlt.
    apply Hv. eapply list_elem_of_lookup_2. exact Heq.
  - destruct Htail as [-> | [r ->]].
    + rewrite app_nil_r in Hlen. lia.
    + destruct (nonspace_run_lookup (drop w (v ++ c_space :: r)) (length v - w))
        as (c & Hc & Hsp); [lia |].
      rewrite lookup_drop in Hc.
      replace (w + (length v - w)) with (length v) in Hc by lia.
      rewrite lookup_app_r, Nat.sub_diag in Hc by lia.
      injection Hc as <-. discriminate.
Qed.

Lemma exec_scan_no_eq (v tail : jsstring) (i : nat) :
  c_eq ∉ v ->
  tail = [] \/ (exists r, tail = c_space :: r) ->
  exec_scan (v ++ tail) i = exec_scan tail (i + length v).
Proof.
  revert i. induction v as [|c v IH]; intros i Hv Htail.
  - simpl. rewrite Nat.add_0_r. reflexivity.
  - change ((c :: v) ++ tail) with (c :: (v ++ tail)).
    rewrite exec_scan_cons.
    change (c :: (v ++ tail)) with ((c :: v) ++ tail).
    rewrite match_here_no_eq by (assumption || discriminate).
    apply not_elem_of_cons in Hv as [_ Hv].
    rewrite IH by assumption. simpl. f_equal. lia.
Qed.

Lemma nonspace_run_le (v tail : jsstring) :
  tail = [] \/ (exists r, tail = c_space :: r) ->
  nonspace_run (v ++ tail) <= length v.
Proof.
  intros Htail. induction v as [|c v IH]; simpl.
  - destruct Htail as [-> | [r ->]]; simpl; lia.
  - destruct (is_space c); lia.
Qed.

(** The greedy key stops at the ['='] of the pair. *)
Lemma match_key_pair (k v tail : jsstring) :
  k <> [] -> Forall (fun c => key_char c = true) k -> c_eq ∉ v ->
  tail = [] \/ (exists r, tail = c_space :: r) ->
  match_key (k ++ c_eq :: v ++ tail) = Some (length k).
Proof.
  intros Hne Hk Hv Htail. apply key_no_eq in Hk as (Hkeq & _ & Hksp).
  destruct (match_key_marker k (v ++ tail) Hne Hksp) as [j Hj].
  rewrite Hj. f_equal.
  pose proof (match_key_run _ _ Hj) as Hrun.
  apply match_key_Some in Hj as (_ & Heq & _).
  rewrite nonspace_run_app in Hrun by exact Hksp. simpl in Hrun.
  pose proof (nonspace_run_le v tail Htail) as Hle.
  destruct (decide (j < length k)) as [Hlt | Hge].
  - rewrite lookup_app_l in Heq by exact Hlt.
    destruct Hkeq. eapply list_elem_of_lookup_2. exact Heq.
  - destruct (decide (j = length k)) as [-> | Hne']; [reflexivity |].
    exfalso. rewrite lookup_app_r in Heq by lia.
    destruct (j - length k) as [|j'] eqn:Ej; [lia |]. simpl in Heq.
    rewrite lookup_app_l in Heq by lia.
    apply Hv. eapply list_elem_of_lookup_2. exact Heq.
Qed.

Lemma match_here_spaced_pair (k v tail : jsstring) :
  k <> [] -> Forall (fun c => key_char c = true) k -> c_eq ∉ v ->
  tail = [] \/ (exists r, tail = c_space :: r) ->
  match_here (c_space :: k ++ c_eq :: v ++ tail) = Some (1, length k).
Proof.
  intros Hne Hk Hv Htail. cbn [match_here].
  change (is_space c_space) with true. cbv iota.
  rewrite match_key_pair by assumption. reflexivity.
Qed.

Lemma match_here_first_pair (k v tail : jsstring) :
  k <> [] -> Forall (fun c => key_char c = true) k -> c_eq ∉ v ->
  tail = [] \/ (exists r, tail = c_space :: r) ->
  match_here (k ++ c_eq :: v ++ tail) = Some (0, length k).
Proof.
  intros Hne Hk Hv Htail.
  pose proof (match_key_pair k v tail Hne Hk Hv Htail) as Hm.
  destruct k as [|c k]; [contradiction |].
  apply Forall_cons in Hk as [Hc _]. apply key_char_spec in Hc as [Hc _].
  change ((c :: k) ++ c_eq :: v ++ tail) with (c :: (k ++ c_eq :: v ++ tail)) in *.
  cbn [match_here]. rewrite Hc, Hm. reflexivity.
Qed.

Lemma spaced_pairs_shape (pairs : list (jsstring * jsstring)) :
  spaced_pairs pairs = [] \/ exists r, spaced_pairs pairs = c_space :: r.
Proof. destruct pairs as [|[k v] rest]; [left | right; eexists]; reflexivity. Qed.

Lemma take_marker (c d : char) (k rest : jsstring) :
  take (1 + length k + 1) (c :: k ++ d :: rest) = c :: k ++ [d].
Proof.
  replace (1 + length k + 1) with (S (length (k ++ [d])))
    by (rewrite length_app; simpl; lia).
  rewrite firstn_cons. f_equal.
  change (k ++ d :: rest) with (k ++ [d] ++ rest).
  rewrite app_assoc. apply take_app_length.
Qed.

Lemma regex_exec_spaced_pair (value pre v k v' tail : jsstring) :
  value = pre ++ v ++ c_space :: k ++ c_eq :: v' ++ tail ->
  c_eq ∉ v -> k <> [] -> Forall (fun c => key_char c = true) k -> c_eq ∉ v' ->
  tail = [] \/ (exists r, tail = c_space :: r) ->
  regex_exec value (length pre)
  = (Some {| m_index := length pre + length v;
             m_0 := c_space :: k ++ [c_eq];
             m_3 := k |},
     length pre + length v + 1 + length k + 1).
Proof.
  intros -> Hv Hne Hk Hv' Htail. unfold regex_exec.
  rewrite drop_app_length.
  rewrite exec_scan_no_eq by (exact Hv || (right; eexists; reflexivity)).
  rewrite exec_scan_cons, match_here_spaced_pair by assumption.
  f_equal. f_equal.
  assert (Hd : drop (length pre + length v)
                 (pre ++ v ++ c_space :: k ++ c_eq :: v' ++ tail)
               = c_space :: k ++ c_eq :: v' ++ tail).
  { rewrite app_assoc. apply drop_app_length'. symmetry. apply length_app. }
  f_equal.
  - rewrite Hd. apply take_marker.
  - rewrite <- drop_drop, Hd. simpl. rewrite drop_0. apply take_app_length.
Qed.

Lemma regex_matches_spaced (pairs : list (jsstring * jsstring))
    (value pre v : jsstring) (fuel : nat) :
  Forall packable pairs -> c_eq ∉ v -> length pairs <= fuel ->
  value = pre ++ v ++ spaced_pairs pairs ->
  regex_matches fuel value (length pre)
  = spaced_matches (length pre + length v) pairs.
Proof.
  intros Hp. revert value pre v fuel.
  induction Hp as [|[k v'] rest (Hne & Hk & Hv') _ IH];
    intros value pre v fuel Hv Hfuel Hval.
  - destruct fuel as [|fuel]; [reflexivity |]. simpl.
    unfold regex_exec. rewrite Hval, drop_app_length.
    rewrite exec_scan_no_eq by (exact Hv || (left; reflexivity)).
    reflexivity.
  - destruct fuel as [|fuel]; [simpl in Hfuel; lia |].
    simpl in Hne, Hk, Hv'. apply value_no_eq in Hv' as [Hv' _].
    cbn [regex_matches spaced_matches].
    rewrite (regex_exec_spaced_pair value pre v k v' (spaced_pairs rest))
      by (assumption || apply spaced_pairs_shape).
    f_equal.
    replace (length pre + length v + 1 + length k + 1)
      with (length (pre ++ v ++ c_space :: k ++ [c_eq]))
      by (rewrite !length_app; simpl; rewrite length_app; simpl; lia).
    rewrite (IH value _ v' fuel Hv').
    + f_equal. rewrite !length_app. simpl. rewrite length_app. simpl. lia.
    + simpl in Hfuel. lia.
    + rewrite Hval. cbn [spaced_pairs]. rewrite <- !app_assoc. simpl.
      rewrite <- !app_assoc. reflexivity.
Qed.

Lemma substring_middle (pre v rest : jsstring) :
  substring (pre ++ v ++ rest) (length pre) (length pre + length v) = v.
Proof.
  unfold substring. rewrite drop_app_length.
  replace (length pre + length v - length pre) with (length v) by lia.
  apply take_app_length.
Qed.

Lemma marker_segments_cons (value : jsstring) (m m' : RegExpMatch)
    (ms : list RegExpMatch) :
  marker_segments value (m :: m' :: ms)
  = (m_3 m ++ [c_eq] ++ substring value (m_end m) (m_index m'))
      :: marker_segments value (m' :: ms).
Proof. reflexivity. Qed.

Lemma marker_segments_spaced (pairs : list (jsstring * jsstring))
    (value pre v : jsstring) (m : RegExpMatch) :
  value = pre ++ v ++ spaced_pairs pairs ->
  m_end m = length pre ->
  marker_segments value (m :: spaced_matches (length pre + length v) pairs)
  = (m_3 m ++ [c_eq] ++ v)
      :: ((fun kv => kv.1 ++ [c_eq] ++ kv.2) <$> pairs).
Proof.
  revert value pre v m. induction pairs as [|[k v'] rest IH];
    intros value pre v m Hval Hend.
  - cbn [spaced_matches marker_segments fmap list_fmap].
    rewrite Hend, Hval, length_app, length_app. simpl. rewrite Nat.add_0_r.
    rewrite substring_middle. reflexivity.
  - cbn [spaced_matches]. rewrite marker_segments_cons. cbn [m_index].
    rewrite Hend. rewrite Hval at 1. rewrite substring_middle.
    f_equal.
    replace (length pre + length v + (1 + length k + 1))
      with (length (pre ++ v ++ c_space :: k ++ [c_eq]))
      by (rewrite !length_app; simpl; rewrite length_app; simpl; lia).
    rewrite (IH value).
    + reflexivity.
    + rewrite Hval. cbn [spaced_pairs]. rewrite <- !app_assoc. simpl.
      rewrite <- !app_assoc. reflexivity.
    + unfold m_end. simpl. rewrite !length_app. simpl.
      rewrite length_app. simpl. lia.
Qed.

Lemma before_eq_id (s : jsstring) : c_eq ∉ s -> before_eq s = s.
Proof.
  induction s as [|c r IH]; intros H; [reflexivity |].
  apply not_elem_of_cons in H as [Hc Hr]. simpl.
  destruct (c =? c_eq)%N eqn:E; [apply N.eqb_eq in E; congruence |].
  rewrite IH by exact Hr. reflexivity.
Qed.

Lemma after_eq_app (k v : jsstring) :
  c_eq ∉ k -> after_eq (k ++ c_eq :: v) = Some v.
Proof.
  induction k as [|c k IH]; intros H; [reflexivity |].
  apply not_elem_of_cons in H as [Hc Hk]. simpl.
  destruct (c =? c_eq)%N eqn:E; [apply N.eqb_eq in E; congruence |].
  exact (IH Hk).
Qed.

Lemma field_split_all_pair (k v : jsstring) :
  c_eq ∉ k -> c_eq ∉ v ->
  field_split_all (k ++ [c_eq] ++ v) = {| f_key := k; f_value := Some v |}.
Proof.
  intros Hk Hv. unfold field_split_all. simpl.
  rewrite before_eq_app, after_eq_app, (before_eq_id k) by exact Hk.
  simpl. rewrite before_eq_id by exact Hv. reflexivity.
Qed.

Lemma length_spaced_pairs (pairs : list (jsstring * jsstring)) :
  length pairs <= length (spaced_pairs pairs).
Proof.
  induction pairs as [|[k v] rest IH]; [reflexivity |].
  cbn [spaced_pairs]. simpl. rewrite !length_app. simpl.
  rewrite length_app. lia.
Qed.

Lemma no_dollar_spaced_pairs (pairs : list (jsstring * jsstring)) :
  Forall packable pairs -> c_dollar ∉ spaced_pairs pairs.
Proof.
  induction 1 as [|[k v] rest (_ & Hk & Hv) _ IH]; [apply not_elem_of_nil |].
  simpl in Hk, Hv. apply key_no_eq in Hk as (_ & Hk & _).
  apply value_no_eq in Hv as [_ Hv]. cbn [spaced_pairs].
  rewrite not_elem_of_cons, !not_elem_of_app, list_elem_of_singleton.
  split; [discriminate |]. split; [exact Hk |].
  split; [discriminate |]. split; [exact Hv | exact IH].
Qed.

(** X11: parsing undoes packing.  When each key is not empty and has no
    whitespace, ['='] or ['$'], and each value has no ['='] or ['$'], the
    fields of the value "k1=v1 k2=v2 ..." are the pairs (k1, v1), (k2, v2),
    ..., in that order. *)
Theorem annotation_fields_format (pairs : list (jsstring * jsstring)) :
  Forall packable pairs ->
  annotation_fields (format_fields pairs)
  = (fun kv => {| f_key := kv.1; f_value := Some kv.2 |}) <$> pairs.
Proof.
  intros Hp. destruct Hp as [|[k v] rest (Hne & Hk & Hv) Hrest].
  { vm_compute. reflexivity. }
  simpl in Hne, Hk, Hv.
  pose proof (key_no_eq _ Hk) as (Hkeq & Hkd & _).
  pose proof (value_no_eq _ Hv) as (Hveq & Hvd).
  set (value := format_fields ((k, v) :: rest)).
  assert (Hval : value = (k ++ [c_eq]) ++ v ++ spaced_pairs rest)
    by (unfold value; cbn [format_fields]; rewrite <- app_assoc; reflexivity).
  assert (Hd : c_dollar ∉ value).
  { rewrite Hval, !not_elem_of_app, list_elem_of_singleton.
    split; [split; [exact Hkd | discriminate] |].
    split; [exact Hvd | apply no_dollar_spaced_pairs, Hrest]. }
  assert (Hfirst : regex_exec value 0
                   = (Some {| m_index := 0; m_0 := k ++ [c_eq]; m_3 := k |},
                      length (k ++ [c_eq]))).
  { unfold regex_exec. rewrite drop_0.
    assert (Hh : match_here value = Some (0, length k)).
    { rewrite Hval, <- app_assoc.
      apply (match_here_first_pair k v (spaced_pairs rest));
        (assumption || apply spaced_pairs_shape). }
    destruct value as [|c r] eqn:Ev.
    { destruct k; discriminate. }
    rewrite exec_scan_cons, Hh. rewrite <- Ev, drop_0, Hval in *.
    f_equal; [f_equal; f_equal |].
    - replace (0 + length k + 1) with (length (k ++ [c_eq]))
        by (rewrite length_app; simpl; lia).
      apply take_app_length.
    - simpl. rewrite <- app_assoc. apply take_app_length.
    - rewrite length_app. simpl. lia. }
  assert (Hms : matches_of value
                = {| m_index := 0; m_0 := k ++ [c_eq]; m_3 := k |}
                    :: spaced_matches (length (k ++ [c_eq]) + length v) rest).
  { unfold matches_of. cbn [regex_matches]. rewrite Hfirst. f_equal.
    apply regex_matches_spaced; [exact Hrest | exact Hveq | | exact Hval].
    rewrite Hval, !length_app.
    pose proof (length_spaced_pairs rest). lia. }
  rewrite annotation_fields_fmap, field_props_segments by exact Hd.
  rewrite Hms, (marker_segments_spaced rest value (k ++ [c_eq]) v)
    by (exact Hval || reflexivity).
  cbn [m_3 fmap list_fmap]. rewrite field_split_all_pair by assumption.
  f_equal. rewrite <- list_fmap_compose.
  apply Forall_fmap_ext. eapply Forall_impl; [exact Hrest |].
  intros [k' v'] (_ & Hk' & Hv'). simpl in *.
  apply field_split_all_pair; [apply key_no_eq, Hk' | apply value_no_eq, Hv'].
Qed.

Lemma annotation_fields_format_witness :
  annotation_fields (str "foo=bar msg=hello world n=1")
  = [ {| f_key := str "foo"; f_value := Some (str "bar") |};
      {| f_key := str "msg"; f_value := Some (str "hello world") |};
      {| f_key := str "n"; f_value := Some (str "1") |} ].
Proof.
  apply (annotation_fields_format
           [ (str "foo", str "bar"); (str "msg", str "hello world");
             (str "n", str "1") ]).
  repeat constructor; try discriminate.
Defined.

Lemma marker_segments_elem (value : jsstring) (ms : list RegExpMatch)
    (seg : jsstring) :
  seg ∈ marker_segments value ms ->
  exists m t, m ∈ ms /\ seg = m_3 m ++ c_eq :: t.
Proof.
  induction ms as [|m ms IH]; intros H; [inversion H |].
  cbn [marker_segments] in H. apply elem_of_cons in H as [-> | H].
  - exists m. eexists. split; [left | reflexivity].
  - destruct (IH H) as (m' & t & Hin & ->).
    exists m', t. split; [right; exact Hin | reflexivity].
Qed.

Lemma after_eq_marker (k t : jsstring) : is_Some (after_eq (k ++ c_eq :: t)).
Proof.
  induction k as [|c k IH]; simpl; [eauto |].
  destruct (c =? c_eq)%N; [eauto | exact IH].
Qed.

(** X12: on an annotation value without ['$'] every field is well formed:
    its key is the start of the key of one of the matches, has no
    whitespace, and its value is defined. *)
Theorem annotation_fields_well_formed (value : jsstring) (f : Field) :
  c_dollar ∉ value -> f ∈ annotation_fields value ->
  (exists m, m ∈ matches_of value /\ f_key f = before_eq (m_3 m)) /\
  Forall (fun d => is_space d = false) (f_key f) /\
  is_Some (f_value f).
Proof.
  intros Hd Hf.
  rewrite annotation_fields_fmap, field_props_segments in Hf by exact Hd.
  apply list_elem_of_fmap in Hf as (seg & -> & Hseg).
  apply marker_segments_elem in Hseg as (m & t & Hm & ->).
  unfold field_split_all. cbn [f_key f_value]. rewrite before_eq_app.
  split; [exists m; auto |]. split.
  - apply before_eq_nonspace.
    destruct (regex_matches_shape value (S (length value)) 0) as [Hshape _].
    rewrite Forall_forall in Hshape.
    destruct (Hshape m Hm) as (_ & _ & w & _ & _ & _ & _ & Hkey). exact Hkey.
  - destruct (after_eq_marker (m_3 m) t) as [r ->]. simpl. eauto.
Qed.

Lemma annotation_fields_well_formed_witness :
  is_Some (f_value {| f_key := str "a"; f_value := Some (str "1") |}).
Proof.
  assert (Hd : c_dollar ∉ str "a=1 b=2").
  { apply (bool_decide_unpack _). vm_compute. exact I. }
  refine (proj2 (proj2 (annotation_fields_well_formed (str "a=1 b=2") _ Hd _))).
  vm_compute. left.
Defined.

Lemma regex_exec_no_eq (value : jsstring) (lastIndex : nat) :
  c_eq ∉ value -> regex_exec value lastIndex = (None, 0).
Proof.
  intros Hv. unfold regex_exec.
  destruct (exec_scan (drop lastIndex value) lastIndex) as [[s [w k]]|] eqn:E;
    [exfalso | reflexivity].
  apply exec_scan_Some in E as (_ & _ & E).
  apply match_here_key in E as [E _].
  apply match_key_Some in E as (_ & E & _).
  rewrite !lookup_drop in E. apply Hv. eapply list_elem_of_lookup_2. exact E.
Qed.

(** X13: an annotation value without ['='] has no match: the loop leaves it
    as it is, and unless it contains ['$'] it yields no field at all. *)
Theorem annotation_without_eq (value : jsstring) :
  c_eq ∉ value ->
  matches_of value = [] /\ fieldsValue_of value = value /\
  (c_dollar ∉ value -> annotation_fields value = []).
Proof.
  intros Hv.
  assert (Hm : matches_of value = []).
  { unfold matches_of. cbn [regex_matches].
    rewrite regex_exec_no_eq by exact Hv. reflexivity. }
  split; [exact Hm |]. split.
  - unfold fieldsValue_of. cbn [fields_loop].
    rewrite regex_exec_no_eq by exact Hv. reflexivity.
  - intros Hd. rewrite annotation_fields_fmap, field_props_segments by exact Hd.
    rewrite Hm. reflexivity.
Qed.

Lemma annotation_without_eq_witness :
  annotation_fields (str "cache miss") = [].
Proof.
  assert (Hv : c_eq ∉ str "cache miss").
  { apply (bool_decide_unpack _). vm_compute. exact I. }
  apply (annotation_without_eq (str "cache miss") Hv).
  apply (bool_decide_unpack _). vm_compute. exact I.
Defined.

(** ** Further properties of the durations and of the query *)

Lemma gt_0_true (a : Q) : gt a 0 = true -> (0 < a)%Q.
Proof.
  unfold gt. intros H. apply Qgt_alt.
  destruct (a ?= 0)%Q; (reflexivity || discriminate).
Qed.

Lemma durationToMs_Some (asMilliseconds : Z -> jsstring -> Q)
    (duration : opt_string) (nanos : bool) (r : Q) :
  durationToMs asMilliseconds duration nanos = Some r ->
  exists s value unit,
    duration = Str s /\ duration_exec s = Some (value, unit) /\
    r = computed_ms asMilliseconds value unit nanos /\ gt r 0 = true.
Proof.
  intros H. destruct (truthy duration) eqn:Et.
  2:{ rewrite durationToMs_falsy in H by exact Et. discriminate. }
  apply truthy_Str in Et as (c & s & ->).
  destruct (duration_exec (c :: s)) as [[value unit]|] eqn:E.
  2:{ rewrite durationToMs_no_match in H by exact E. discriminate. }
  rewrite (durationToMs_match _ _ _ _ _ E) in H. cbv zeta in H.
  destruct (gt _ 0) eqn:Eg; [| discriminate]. injection H as <-.
  exists (c :: s), value, unit. auto.
Qed.

(** X14: [durationToMs] never returns zero or a negative number, so that the
    [minDuration], [maxDuration] and [lookback] of the translated query are
    [null] or strictly positive. *)
Theorem durations_positive (asMilliseconds : Z -> jsstring -> Q) :
  (forall duration nanos r,
     durationToMs asMilliseconds duration nanos = Some r -> (0 < r)%Q) /\
  (forall query r,
     minDuration (zipkinQuery_of asMilliseconds query) = Some r \/
     maxDuration (zipkinQuery_of asMilliseconds query) = Some r \/
     lookback (zipkinQuery_of asMilliseconds query) = Some (Some r) ->
     (0 < r)%Q).
Proof.
  assert (Hpos : forall duration nanos r,
     durationToMs asMilliseconds duration nanos = Some r -> (0 < r)%Q).
  { intros duration nanos r H.
    apply durationToMs_Some in H as (_ & _ & _ & _ & _ & _ & H).
    apply gt_0_true, H. }
  split; [exact Hpos |].
  intros query r [H | [H | H]]; cbn [zipkinQuery_of minDuration maxDuration lookback] in H.
  - exact (Hpos _ _ _ H).
  - exact (Hpos _ _ _ H).
  - destruct (truthy (q_lookback query)); [| discriminate].
    injection H as H. exact (Hpos _ _ _ H).
Qed.

Lemma durations_positive_witness : (0 < inject_Z 12000 * 1000)%Q.
Proof.
  apply (proj2 (durations_positive unit_table)
           (sample_query (Str (str "svcA")))).
  left. vm_compute. reflexivity.
Defined.

Lemma letter_not_digit (c : char) : is_letter c = true -> is_digit c = false.
Proof.
  intros H. destruct (is_digit c) eqn:E; [| reflexivity].
  apply digit_not_letter in E. congruence.
Qed.

Lemma digit_run_app (value t : jsstring) :
  Forall (fun c => is_digit c = true) value ->
  digit_run (value ++ t) = length value + digit_run t.
Proof.
  induction 1 as [|c value Hc _ IH]; [reflexivity |].
  simpl. rewrite Hc, IH. reflexivity.
Qed.

Lemma letter_run_app (unit t : jsstring) :
  Forall (fun c => is_letter c = true) unit ->
  letter_run (unit ++ t) = length unit + letter_run t.
Proof.
  induction 1 as [|c unit Hc _ IH]; [reflexivity |].
  simpl. rewrite Hc, IH. reflexivity.
Qed.

Lemma duration_exec_skip (pre s : jsstring) :
  Forall (fun c => is_digit c = false) pre ->
  duration_exec (pre ++ s) = duration_exec s.
Proof.
  induction 1 as [|c pre Hc _ IH]; [reflexivity |].
  change ((c :: pre) ++ s) with (c :: (pre ++ s)).
  cbn [duration_exec]. unfold duration_match_here. cbn [digit_run].
  rewrite Hc. cbn [digits_backtrack]. exact IH.
Qed.

Lemma duration_exec_token (value unit rest : jsstring) :
  value <> [] -> Forall (fun c => is_digit c = true) value ->
  unit <> [] -> Forall (fun c => is_letter c = true) unit ->
  letter_run rest = 0 ->
  duration_exec (value ++ unit ++ rest) = Some (value, unit).
Proof.
  intros Hv Hdig Hu Hlet Hrest.
  assert (Hrun : digit_run (value ++ unit ++ rest) = length value).
  { rewrite digit_run_app by exact Hdig.
    destruct unit as [|c unit]; [contradiction |].
    apply Forall_cons in Hlet as [Hc _]. apply letter_not_digit in Hc.
    simpl. rewrite Hc. lia. }
  assert (Hm : duration_match_here (value ++ unit ++ rest)
               = Some (length value, length unit)).
  { unfold duration_match_here. rewrite Hrun.
    destruct (length value) as [|n] eqn:En.
    { destruct value; [contradiction | discriminate]. }
    cbn [digits_backtrack]. rewrite <- En, drop_app_length.
    rewrite letter_run_app, Hrest, Nat.add_0_r by exact Hlet.
    destruct (length unit) as [|n'] eqn:En'.
    { destruct unit; [contradiction | discriminate]. }
    reflexivity. }
  destruct (value ++ unit ++ rest) as [|c r] eqn:Es.
  { destruct value; [contradiction | discriminate]. }
  cbn [duration_exec]. rewrite Hm, <- Es.
  rewrite take_app_length, drop_app_length, take_app_length. reflexivity.
Qed.

(** X15: only the first number with a unit counts.  When a token has, after
    text without digits, a run of digits, a run of letters and then no
    letter, [durationToMs] returns what it returns for the digits and the
    letters alone; the text around them is ignored. *)
Theorem durationToMs_first_token (asMilliseconds : Z -> jsstring -> Q)
    (pre value unit rest : jsstring) (nanos : bool) :
  Forall (fun c => is_digit c = false) pre ->
  value <> [] -> Forall (fun c => is_digit c = true) value ->
  unit <> [] -> Forall (fun c => is_letter c = true) unit ->
  letter_run rest = 0 ->
  durationToMs asMilliseconds (Str (pre ++ value ++ unit ++ rest)) nanos
  = durationToMs asMilliseconds (Str (value ++ unit)) nanos /\
  durationToMs asMilliseconds (Str (value ++ unit)) nanos
  = (let ms := computed_ms asMilliseconds value unit nanos in
     if gt ms 0 then Some ms else None).
Proof.
  intros Hpre Hv Hdig Hu Hlet Hrest.
  assert (E1 : duration_exec (pre ++ value ++ unit ++ rest) = Some (value, unit)).
  { rewrite duration_exec_skip by exact Hpre.
    apply duration_exec_token; assumption. }
  assert (E2 : duration_exec (value ++ unit) = Some (value, unit)).
  { rewrite <- (app_nil_r unit) at 1.
    apply duration_exec_token; (assumption || reflexivity). }
  rewrite (durationToMs_match _ _ _ _ _ E1), (durationToMs_match _ _ _ _ _ E2).
  split; reflexivity.
Qed.

Lemma durationToMs_first_token_witness :
  durationToMs unit_table (Str (str "about 1h30m")) false
  = durationToMs unit_table (Str (str "1h")) false.
Proof.
  apply (durationToMs_first_token unit_table
           (str "about ") (str "1") (str "h") (str "30m") false);
    first [discriminate | reflexivity | repeat constructor].
Defined.

(** X16: the [lookback] of the translated query.  A falsy [query.lookback]
    (absent, [null] or empty) adds no [lookback] field; a non-empty one adds
    the field with its plain (not nanosecond) duration, which is [null] when
    the token has no digit followed by a letter. *)
Theorem zipkinQuery_lookback (asMilliseconds : Z -> jsstring -> Q)
    (query : Query) :
  (lookback (zipkinQuery_of asMilliseconds query) = None <->
   truthy (q_lookback query) = false) /\
  (forall s, q_lookback query = Str s -> s <> [] ->
     lookback (zipkinQuery_of asMilliseconds query)
     = Some (durationToMs asMilliseconds (Str s) false) /\
     ((forall i, ~ digit_then_letter s i) ->
      lookback (zipkinQuery_of asMilliseconds query) = Some None)).
Proof.
  cbn [zipkinQuery_of lookback]. split.
  - destruct (truthy (q_lookback query)); split; (reflexivity || discriminate).
  - intros s Hs Hne. rewrite Hs.
    destruct s as [|c s]; [contradiction |]. cbn [truthy].
    split; [reflexivity |].
    intros Hno. f_equal.
    apply durationToMs_no_match, duration_exec_None, Hno.
Qed.

Lemma zipkinQuery_lookback_witness :
  lookback (zipkinQuery_of unit_table (sample_query Undefined))
  = Some (Some (inject_Z 3600000)).
Proof.
  destruct (proj2 (zipkinQuery_lookback unit_table (sample_query Undefined))
              (str "1h") eq_refl) as [H _]; [discriminate |].
  rewrite H. vm_compute. reflexivity.
Defined.

Lemma digit_run_take (s : jsstring) (k : nat) :
  k <= digit_run s -> Forall (fun c => is_digit c = true) (take k s).
Proof.
  revert k. induction s as [|c r IH]; intros k Hk.
  - rewrite take_nil. constructor.
  - destruct k as [|k]; [constructor |]. simpl in *.
    destruct (is_digit c) eqn:E; [| lia].
    constructor; [exact E | apply IH; lia].
Qed.

Lemma letter_run_take (s : jsstring) :
  Forall (fun c => is_letter c = true) (take (letter_run s) s) /\
  length (take (letter_run s) s) = letter_run s /\
  letter_run (drop (letter_run s) s) = 0.
Proof.
  induction s as [|c r (IH1 & IH2 & IH3)]; [repeat split; constructor |].
  simpl. destruct (is_letter c) eqn:E.
  - simpl. split; [constructor; assumption |]. split; [congruence | exact IH3].
  - simpl. rewrite E. repeat split. constructor.
Qed.

Lemma parseInt10_nonneg (value : jsstring) :
  Forall (fun c => is_digit c = true) value -> (0 <= parseInt10 value)%Z.
Proof.
  unfold parseInt10. intros H.
  assert (Hacc : forall n, (0 <= n)%Z ->
            (0 <= foldl (fun n c => 10 * n + (Z.of_N c - 48))%Z n value)%Z).
  { induction H as [|c value Hc _ IH]; intros n Hn; [exact Hn |].
    simpl. apply IH. unfold is_digit in Hc.
    apply andb_true_iff in Hc as [H1 H2]. apply N.leb_le in H1, H2. lia. }
  apply Hacc. lia.
Qed.

(** X17: what the duration pattern hands to [parseInt] and to the library.
    The first group is a non-empty run of decimal digits, so [parseInt]
    yields a number that is not negative; the second group is a non-empty
    run of letters that no letter follows; and the two groups stand side by
    side in the token. *)
Theorem duration_exec_groups (s value unit : jsstring) :
  duration_exec s = Some (value, unit) ->
  value <> [] /\ Forall (fun c => is_digit c = true) value /\
  unit <> [] /\ Forall (fun c => is_letter c = true) unit /\
  (0 <= parseInt10 value)%Z /\
  exists pre rest, s = pre ++ value ++ unit ++ rest /\ letter_run rest = 0.
Proof.
  induction s as [|c r IH].
  - discriminate.
  - cbn [duration_exec].
    destruct (duration_match_here (c :: r)) as [[k l]|] eqn:E.
    + intros [= <- <-]. unfold duration_match_here in E.
      apply digits_backtrack_Some in E as (Hk & -> & Hl).
      pose proof (digit_run_take (c :: r) k ltac:(lia)) as Hdig.
      destruct (letter_run_take (drop k (c :: r))) as (Hlet & Hlen & Hrest).
      split.
      { intros Hnil. apply (f_equal length) in Hnil.
        rewrite length_take in Hnil. simpl in Hnil. lia. }
      split; [exact Hdig |]. split.
      { intros Hnil. rewrite Hnil in Hlen. simpl in Hlen. lia. }
      split; [exact Hlet |]. split; [apply parseInt10_nonneg, Hdig |].
      exists [], (drop (letter_run (drop k (c :: r))) (drop k (c :: r))).
      split; [| exact Hrest].
      rewrite app_nil_l, !take_drop. reflexivity.
    + intros H. destruct (IH H) as (H1 & H2 & H3 & H4 & H5 & pre & rest & -> & H6).
      repeat (split; [assumption |]).
      exists (c :: pre), rest. split; [reflexivity | exact H6].
Qed.

Lemma duration_exec_groups_witness :
  (0 <= parseInt10 (str "500"))%Z.
Proof.
  apply (duration_exec_groups (str "wait 500us") (str "500") (str "us")).
  reflexivity.
Defined.

(** X18: a span has at most one reference; a reference always points at the
    span's own non-empty [parentId], within the span's trace, and its type
    is CHILD_OF or FOLLOWS_FROM. *)
Theorem references_invariant (span : Zipkin.Span) :
  length (Jaeger.references (transformSpan span)) <= 1 /\
  forall r, r ∈ Jaeger.references (transformSpan span) ->
    Jaeger.r_spanID r = Zipkin.parentId span /\
    truthy (Jaeger.r_spanID r) = true /\
    Jaeger.r_traceID r = Jaeger.s_traceID (transformSpan span) /\
    (Jaeger.refType r = str "CHILD_OF" \/ Jaeger.refType r = str "FOLLOWS_FROM").
Proof.
  cbn [transformSpan Jaeger.references Jaeger.s_traceID].
  unfold transformReferences.
  destruct (truthy (Zipkin.parentId span)) eqn:E; cbn [negb].
  - split; [simpl; lia |]. intros r Hr.
    apply list_elem_of_singleton in Hr as ->. cbn.
    split; [reflexivity |]. split; [exact E |]. split; [reflexivity |].
    destruct (strict_eq _ _); [right | left]; reflexivity.
  - split; [simpl; lia |]. intros r Hr. inversion Hr.
Qed.

Lemma references_invariant_witness :
  Jaeger.r_spanID
    (parent_reference (sample_span "s2" (Str (str "s1")) Undefined
                         (endpoint_of "B" "10.0.0.2")))
  = Str (str "s1").
Proof.
  refine (proj1 (proj2 (references_invariant
            (sample_span "s2" (Str (str "s1")) Undefined
               (endpoint_of "B" "10.0.0.2"))) _ _)).
  left.
Defined.

(** ** The two modes of [durationToMs], over IEEE doubles *)

(** *** Rounding keeps a positive number positive *)















(** *** [durationToMs] over doubles *)






(** ** Last write wins, in every trace *)

(** X19: in every non-empty trace, spans of the service "__proto__" or not,
    the process table has one entry per distinct service name other than
    "__proto__", and the entry of such a name is the record of the last span
    of that name, whose [ip] tag holds that span's [ipv4]. *)
Theorem processes_last_write_wins_everywhere (trace : list Zipkin.Span)
    (t : Jaeger.Trace) :
  transformTraceData trace = Some t ->
  dict_size (Jaeger.processes t)
  = length (remove_dups
              (filter (fun n => n <> proto_key) (service_name <$> trace))) /\
  (forall l1 span l2,
     trace = l1 ++ span :: l2 ->
     service_name span <> proto_key ->
     (forall later, later ∈ l2 -> service_name later <> service_name span) ->
     exists p, own (Jaeger.processes t) !! service_name span = Some p /\
       ip_tag p = Some {| Jaeger.p_key := str "ip";
                          Jaeger.p_type := str "string";
                          Jaeger.p_value := Zipkin.ipv4 (Zipkin.localEndpoint span) |}).
Proof.
  intros H. apply transformTraceData_Some in H as (first & rest & _ & _ & _ & ->).
  split.
  - unfold dict_size. rewrite <- size_dom, add_processes_dom_filter. simpl.
    rewrite dom_empty_L, (left_id_L ∅ (∪)).
    rewrite <- (size_list_to_set (C := gset jsstring) (remove_dups _))
      by apply NoDup_remove_dups.
    f_equal. apply set_eq. intros x.
    rewrite !elem_of_list_to_set, elem_of_remove_dups. reflexivity.
  - intros l1 span l2 -> Hne Hlater. exists (process_of span).
    split; [| reflexivity].
    rewrite add_processes_app, add_processes_cons.
    rewrite add_processes_lookup_other by exact Hlater.
    rewrite own_dict_set by exact Hne. apply lookup_insert_eq.
Qed.

Lemma processes_last_write_wins_everywhere_witness :
  let a1 := sample_span "s1" Undefined Undefined (endpoint_of "A" "10.0.0.1") in
  let p := sample_span "s2" Undefined Undefined (endpoint_of "__proto__" "10.0.0.2") in
  let a2 := sample_span "s3" Undefined Undefined (endpoint_of "A" "10.0.0.3") in
  exists t, transformTraceData [a1; p; a2] = Some t /\
    dict_size (Jaeger.processes t) = 1 /\
    exists r, own (Jaeger.processes t) !! str "A" = Some r /\
      ip_tag r = Some {| Jaeger.p_key := str "ip";
                         Jaeger.p_type := str "string";
                         Jaeger.p_value := Str (str "10.0.0.3") |}.
Proof.
  intros a1 p a2. eexists. split; [reflexivity |].
  destruct (processes_last_write_wins_everywhere [a1; p; a2] _ eq_refl)
    as [Hsize Hlast].
  split.
  - rewrite Hsize. vm_compute. reflexivity.
  - apply (Hlast [a1; p] a2 []); [reflexivity | discriminate |].
    intros later Hin. inversion Hin.
Defined.
